(** * chain-able: MethodChain and ChainedMap

    A shallow embedding of the classes [MethodChain] and [ChainedMap]
    (MethodChain.js, ChainedMap.js).

    JavaScript objects live in an explicit heap; every function of the two
    classes is a state-passing definition over that heap.  Functions
    created by the source (arrow functions, wrappers) are first-order
    closure records stored in function objects, and are run by one
    interpreter, [invoke], that is bounded by fuel.

    A call of a method of the class hierarchy on [this] ([this.get],
    [this.entries], [this._build], ...) is a direct use of its
    definition.  A call of a function held in a property (the arrow
    functions the constructor stores on the instance, the shorthands, the
    methods of the parent and of the decorated object) reads the property
    and goes through the interpreter. *)

From Stdlib Require Import ZArith String List Bool Lia DecimalString.
From stdpp Require Import base option list.
Import ListNotations.

Set Warnings "-register-all".

Local Open Scope string_scope.
Local Open Scope list_scope.

(** ** Values *)

Abbreviation loc := nat.

(** Numbers are the integer-valued ones, plus NaN.  Arrays are immutable
    sequences: the one in-place update of the sources, [shorthands.push],
    rewrites the field that holds the array.  Every other object is a
    reference into the heap. *)
Inductive value : Type :=
| VUndef
| VNull
| VBool (b : bool)
| VNum (n : Z)
| VNaN
| VStr (s : string)
| VArr (l : list value)
| VRef (l : loc).

(** An own property, as the engine stores it. *)
Inductive prop : Type :=
| PData (v : value) (writable enumerable configurable : bool)
| PAcc (getter setter : value) (enumerable configurable : bool).

(** A property descriptor object, as [Object.getOwnPropertyDescriptor]
    returns it and [Object.defineProperty] reads it: an absent field is
    [None]. *)
Record descriptor : Type := Descriptor {
  d_value : option value;
  d_get : option value;
  d_set : option value;
  d_writable : option bool;
  d_enumerable : option bool;
  d_configurable : option bool
}.

(** A plain object literal that the code never aliases ([entries()], the
    argument and result of [clean]) is its list of own enumerable data
    properties, in key order. *)
Definition fields := list (string * value).

(** Functions of the source, by the place that creates them.  The
    arguments of a constructor are the variables the function closes
    over. *)
Inductive cm_method : Type :=
| CM_tap | CM_from | CM_extend | CM_clear | CM_entries | CM_get | CM_set
| CM_merge | CM_clean.

Inductive mc_method : Type :=
| MC_schema | MC_build | MC__defaults | MC__build | MC_decorate
| MC_autoIncrement.

Inductive mc_own : Type :=
| MO_toNumber | MO_method | MO_encase | MO_bind | MO_returns | MO_onSet
| MO_onGet | MO_onCall | MO_alias | MO_factory | MO_name | MO_camelCase
| MO_define | MO_getSet.

Inductive closure : Type :=
(* a function supplied by the caller of the library *)
| CHost (id : nat)
(* ChainedMap.prototype.<m> and MethodChain.prototype.<m> *)
| CChainedMap (m : cm_method)
| CMethodChain (m : mc_method)
(* the arrow functions the MethodChain constructor stores on [this] *)
| COwn (m : mc_own) (this parent : value)
(* [value => this.set(method, value)], from [extend] *)
| CShorthand (this method : value)
(* [(old, merge) => merge(old, toarr(x))], from [alias] and [factory] *)
| CMergeInto (x : value)
(* the factory queued by [name] for one key of a mapping *)
| CNameFactory (this methods : value)
(* [arg => parent.set(name, arg)] and [() => parent.get(name)] *)
| CDefaultOnSet (parent name : value)
| CDefaultOnGet (parent name : value)
(* [(arg = defaultValue) => call.call(parent, arg)] *)
| CDefaultMethod (callfn parent defaultValue : value)
(* [method.bind(bind)] *)
| CBound (target boundThis : value)
(* the wrapper built under [if (returns)] *)
| CReturns (ref parent returns callReturns : value)
(* the factory queued by [decorate], and its [returnsFunction] *)
| CDecorateFactory (this parentToDecorate : value)
| CReturnsFunction (parentToDecorate : value)
(* the factory queued by [autoIncrement], its call handler, and
   [num => num + 1] *)
| CAutoIncrementFactory (this : value)
| CAutoIncrementCall (parent name : value)
| CIncrement
(* the deep-merge helper handed to [tap] callbacks *)
| CDopemerge
(* a class, as the function its prototype's [constructor] refers to *)
| CClass (prototype : loc).

(** ** Heap *)

Inductive kind : Type :=
| KPlain
| KFun (c : closure)
| KMap (entries : list (value * value)).

Record obj : Type := Obj {
  o_proto : option loc;
  o_ext : bool;
  o_props : list (string * prop);
  o_kind : kind
}.

Abbreviation heap := (list obj).

(** ** Outcomes and the state monad *)

(** [Throw] is a JavaScript exception.  [Stuck] is a limit of the model:
    fuel ran out, or the program left the modelled fragment. *)
Inductive outcome (A : Type) : Type :=
| Ok (a : A)
| Throw (msg : string)
| Stuck (why : string).
Arguments Ok {A} a.
Arguments Throw {A} msg.
Arguments Stuck {A} why.

Definition M (A : Type) : Type := heap -> outcome (A * heap).

Definition ret {A} (a : A) : M A := fun h => Ok (a, h).
Definition bind {A B} (m : M A) (k : A -> M B) : M B :=
  fun h => match m h with
           | Ok (a, h') => k a h'
           | Throw e => Throw e
           | Stuck w => Stuck w
           end.
Definition throw {A} (msg : string) : M A := fun _ => Throw msg.
Definition stuck {A} (why : string) : M A := fun _ => Stuck why.
Definition get_heap : M heap := fun h => Ok (h, h).
Definition put_heap (h : heap) : M unit := fun _ => Ok (tt, h).

Declare Scope js_scope.
Delimit Scope js_scope with js.
Notation "x <- m ;; k" := (bind m (fun x => k))
  (at level 100, m at next level, right associativity) : js_scope.
Notation "m ;; k" := (bind m (fun _ => k))
  (at level 100, right associativity) : js_scope.
Local Open Scope js_scope.

(** The type of the interpreter: callee, receiver, arguments. *)
Definition caller := value -> value -> list value -> M value.

(** [for (...) body] over the elements of a sequence. *)
Fixpoint for_each {A} (f : A -> M unit) (l : list A) : M unit :=
  match l with
  | [] => ret tt
  | x :: l' => f x ;; for_each f l'
  end.

(** ** What the sources import, and what their caller supplies *)

(** The constants and functions below are required by the sources and
    are not part of them.  [host] gives the behaviour of the functions
    supplied by the caller of the library, [source_text] the text that a
    function converts to. *)
Record env : Type := Env {
  ENV_DEVELOPMENT : bool;
  DECORATED_KEY : value;
  SHORTHANDS_KEY : value;
  camelCase : string -> string;
  meta : value -> M value;
  validatorMethodFactory : value -> value -> fields -> M value;
  methodEncasingFactory : value -> value -> fields -> value -> M value;
  host : nat -> value -> list value -> M value;
  source_text : closure -> string
}.

(** ** Association lists *)

Fixpoint alookup {A} (k : string) (l : list (string * A)) : option A :=
  match l with
  | [] => None
  | (k', a) :: l' => if String.eqb k k' then Some a else alookup k l'
  end.

(** [o[k] = a]: in place when the key exists, appended otherwise. *)
Fixpoint aset {A} (k : string) (a : A) (l : list (string * A))
  : list (string * A) :=
  match l with
  | [] => [(k, a)]
  | (k', a') :: l' =>
      if String.eqb k k' then (k, a) :: l' else (k', a') :: aset k a l'
  end.

Fixpoint adelete {A} (k : string) (l : list (string * A))
  : list (string * A) :=
  match l with
  | [] => []
  | (k', a') :: l' =>
      if String.eqb k k' then adelete k l' else (k', a') :: adelete k l'
  end.

(** ** Primitive operations of the language *)

Module JS.

Definition truthy (v : value) : bool :=
  match v with
  | VUndef | VNull | VNaN => false
  | VBool b => b
  | VNum n => negb (Z.eqb n 0)
  | VStr s => negb (String.eqb s "")
  | VArr _ | VRef _ => true
  end.

(** [a || b] *)
Definition or (a b : value) : value := if truthy a then a else b.

(** SameValueZero, the key comparison of [Map], on two values neither of
    which is an array.  The identity of an array is not tracked, so an
    array is equal to nothing. *)
Definition value_eqb (a b : value) : bool :=
  match a, b with
  | VUndef, VUndef | VNull, VNull | VNaN, VNaN => true
  | VBool x, VBool y => Bool.eqb x y
  | VNum x, VNum y => Z.eqb x y
  | VStr x, VStr y => String.eqb x y
  | VRef x, VRef y => Nat.eqb x y
  | _, _ => false
  end.

Definition is_array (v : value) : bool :=
  match v with VArr _ => true | _ => false end.

Definition string_of_Z (n : Z) : string :=
  NilZero.string_of_int (Z.to_int n).

(** *** Heap access *)

Definition alloc (o : obj) : M loc :=
  fun h => Ok (length h, h ++ [o]).

(** A new function object.  Of the members every function owns, the
    model keeps [name], which the source redefines in development mode. *)
Definition new_fun (c : closure) : obj :=
  Obj None true [("name", PData (VStr "") false false true)] (KFun c).

Definition alloc_fun (c : closure) : M value :=
  l <- alloc (new_fun c) ;; ret (VRef l).

Definition update (l : loc) (f : obj -> obj) : M unit :=
  fun h => match h !! l with
           | Some o => Ok (tt, <[l := f o]> h)
           | None => Stuck "dangling reference"
           end.

Definition set_props (ps : list (string * prop)) (o : obj) : obj :=
  Obj (o_proto o) (o_ext o) ps (o_kind o).

Definition set_kind (k : kind) (o : obj) : obj :=
  Obj (o_proto o) (o_ext o) (o_props o) k.

Definition own_prop (h : heap) (l : loc) (k : string) : option prop :=
  match h !! l with
  | Some o => alookup k (o_props o)
  | None => None
  end.

(** The property [k] of [l], own or inherited.  [depth] bounds the walk
    along the prototype chain. *)
Fixpoint find_prop (depth : nat) (h : heap) (l : loc) (k : string)
  : option prop :=
  match h !! l with
  | None => None
  | Some o =>
      match alookup k (o_props o) with
      | Some p => Some p
      | None =>
          match depth, o_proto o with
          | S d, Some l' => find_prop d h l' k
          | _, _ => None
          end
      end
  end.

(** ToString, as ToPropertyKey and template strings use it, for the
    values whose conversion runs no user code: an object must not have a
    [toString] or [valueOf] member within reach (the ones of the built-in
    prototypes are not on the heap). *)
Fixpoint to_key (E : env) (h : heap) (v : value) : option string :=
  match v with
  | VStr s => Some s
  | VNum n => Some (string_of_Z n)
  | VNaN => Some "NaN"
  | VBool true => Some "true"
  | VBool false => Some "false"
  | VUndef => Some "undefined"
  | VNull => Some "null"
  | VArr l =>
      (fix join (l : list value) : option string :=
         match l with
         | [] => Some ""
         | x :: l' =>
             let sx := match x with
                       | VUndef | VNull => Some ""
                       | _ => to_key E h x
                       end in
             match sx with
             | None => None
             | Some a =>
                 match l' with
                 | [] => Some a
                 | _ :: _ =>
                     match join l' with
                     | Some b => Some (a ++ "," ++ b)%string
                     | None => None
                     end
                 end
             end
         end) l
  | VRef l =>
      match h !! l with
      | Some o =>
          match find_prop (length h) h l "toString",
                find_prop (length h) h l "valueOf" with
          | None, None =>
              Some (match o_kind o with
                    | KFun c => source_text E c
                    | KPlain => "[object Object]"
                    | KMap _ => "[object Map]"
                    end)
          | _, _ => None
          end
      | None => None
      end
  end.

Definition key_of (E : env) (v : value) : M string :=
  fun h =>
    match to_key E h v with
    | Some k => Ok (k, h)
    | None => Stuck "conversion of an object to a string"
    end.

Definition closure_of (h : heap) (v : value) : option closure :=
  match v with
  | VRef l => match h !! l with
              | Some (Obj _ _ _ (KFun c)) => Some c
              | _ => None
              end
  | _ => None
  end.

(** [typeof v === 'function'] *)
Definition is_callable (h : heap) (v : value) : bool :=
  match closure_of h v with Some _ => true | None => false end.

(** [v instanceof C], for a class whose prototype object is [cproto]. *)
Fixpoint proto_chain_has (depth : nat) (h : heap) (l cproto : loc) : bool :=
  match h !! l with
  | None => false
  | Some o =>
      match o_proto o with
      | None => false
      | Some l' =>
          Nat.eqb l' cproto ||
          match depth with
          | S d => proto_chain_has d h l' cproto
          | O => false
          end
      end
  end.

Definition instance_of (h : heap) (v : value) (cproto : loc) : bool :=
  match v with
  | VRef l => proto_chain_has (length h) h l cproto
  | _ => false
  end.

(** [v instanceof Map]: the objects that carry map data. *)
Definition is_map (h : heap) (v : value) : bool :=
  match v with
  | VRef l => match h !! l with
              | Some (Obj _ _ _ (KMap _)) => true
              | _ => false
              end
  | _ => false
  end.

Section WithCall.
Variable call : caller.

(** [recv[k]] *)
Definition get_prop (recv : value) (k : string) : M value :=
  match recv with
  | VRef l =>
      h <- get_heap ;;
      match find_prop (length h) h l k with
      | None => ret VUndef
      | Some (PData v _ _ _) => ret v
      | Some (PAcc g _ _ _) =>
          match g with
          | VUndef => ret VUndef
          | _ => call g recv []
          end
      end
  | VUndef | VNull => throw "TypeError: cannot read a property of undefined or null"
  | _ => stuck "property read on a primitive or an array"
  end.

(** A failed assignment: a TypeError in strict code (class bodies are
    strict), nothing at all in sloppy code (the two module-level helpers
    of MethodChain.js). *)
Definition refuse (strict : bool) (msg : string) : M unit :=
  if strict then throw msg else ret tt.

(** [recv[k] = v] *)
Definition set_prop (strict : bool) (recv : value) (k : string) (v : value)
  : M unit :=
  match recv with
  | VRef l =>
      h <- get_heap ;;
      match h !! l with
      | None => stuck "dangling reference"
      | Some o =>
          let create :=
            if o_ext o
            then update l
                   (set_props (aset k (PData v true true true) (o_props o)))
            else refuse strict "TypeError: the object is not extensible" in
          match find_prop (length h) h l k with
          | Some (PAcc _ s _ _) =>
              match s with
              | VUndef => refuse strict "TypeError: the property has only a getter"
              | _ => call s recv [v] ;; ret tt
              end
          | Some (PData _ false _ _) =>
              refuse strict "TypeError: cannot assign to a read only property"
          | Some (PData _ true e c) =>
              match alookup k (o_props o) with
              | Some _ =>
                  update l (set_props (aset k (PData v true e c) (o_props o)))
              | None => create
              end
          | None => create
          end
      end
  | VArr _ => stuck "assignment to a property of an array"
  | VUndef | VNull =>
      throw "TypeError: cannot set a property of undefined or null"
  | _ => refuse strict "TypeError: cannot create a property on a primitive"
  end.

(** [f.call(this, ...args)] and [f.apply(this, args)]. *)
Definition call_function (f this : value) (args : list value) : M value :=
  h <- get_heap ;;
  match f with
  | VRef l =>
      if is_callable h f then call f this args
      else match find_prop (length h) h l "call" with
           | None => throw "TypeError: not a function"
           | Some _ => stuck "an object with a call member of its own"
           end
  | VUndef | VNull => throw "TypeError: cannot read a property of undefined or null"
  | VArr _ => stuck "call on an array"
  | _ => throw "TypeError: not a function"
  end.

(** [f(...args)] for a plain call expression. *)
Definition call_value (f : value) (args : list value) : M value :=
  h <- get_heap ;;
  if is_callable h f then call f VUndef args
  else throw "TypeError: not a function".

(** [recv[k](...args)] *)
Definition call_method (recv : value) (k : string) (args : list value)
  : M value :=
  f <- get_prop recv k ;;
  h <- get_heap ;;
  if is_callable h f then call f recv args
  else throw "TypeError: not a function".

End WithCall.

(** [delete recv[k]] in strict code. *)
Definition delete_prop (recv : value) (k : string) : M unit :=
  match recv with
  | VRef l =>
      h <- get_heap ;;
      match h !! l with
      | None => stuck "dangling reference"
      | Some o =>
          match alookup k (o_props o) with
          | None => ret tt
          | Some (PData _ _ _ false) | Some (PAcc _ _ _ false) =>
              throw "TypeError: cannot delete the property"
          | Some _ => update l (set_props (adelete k (o_props o)))
          end
      end
  | VUndef | VNull => throw "TypeError: cannot convert undefined or null to object"
  | _ => stuck "delete on a primitive or an array"
  end.

(** [Object.prototype.hasOwnProperty.call(recv, k)] *)
Definition hasOwnProperty (recv : value) (k : string) : M bool :=
  match recv with
  | VRef l =>
      h <- get_heap ;;
      ret (match own_prop h l k with Some _ => true | None => false end)
  | VUndef | VNull => throw "TypeError: cannot convert undefined or null to object"
  | _ => stuck "own property test on a primitive or an array"
  end.

Definition descriptor_of (p : prop) : descriptor :=
  match p with
  | PData v w e c => Descriptor (Some v) None None (Some w) (Some e) (Some c)
  | PAcc g s e c => Descriptor None (Some g) (Some s) None (Some e) (Some c)
  end.

(** [Object.getOwnPropertyDescriptor(recv, k)] *)
Definition getDescriptor (recv : value) (k : string) : M (option descriptor) :=
  match recv with
  | VRef l =>
      h <- get_heap ;;
      ret (option_map descriptor_of (own_prop h l k))
  | VUndef | VNull => throw "TypeError: cannot convert undefined or null to object"
  | _ => stuck "own property descriptor of a primitive or an array"
  end.

(** [Object.assign(target, source)] on two descriptor objects. *)
Definition ObjectAssign (target source : descriptor) : descriptor :=
  let pick {A} (s t : option A) := match s with Some _ => s | None => t end in
  Descriptor
    (pick (d_value source) (d_value target))
    (pick (d_get source) (d_get target))
    (pick (d_set source) (d_set target))
    (pick (d_writable source) (d_writable target))
    (pick (d_enumerable source) (d_enumerable target))
    (pick (d_configurable source) (d_configurable target)).

Definition is_accessor_descriptor (d : descriptor) : bool :=
  match d_get d, d_set d with None, None => false | _, _ => true end.

Definition is_data_descriptor (d : descriptor) : bool :=
  match d_value d, d_writable d with None, None => false | _, _ => true end.

Definition callable_or_undefined (h : heap) (o : option value) : bool :=
  match o with
  | None | Some VUndef => true
  | Some v => is_callable h v
  end.

Definition or_default {A} (o : option A) (d : A) : A :=
  match o with Some a => a | None => d end.

(** SameValue, where the model decides it. *)
Definition same_value (a b : value) : option bool :=
  match a, b with
  | VArr _, VArr _ => None
  | _, _ => Some (value_eqb a b)
  end.

Definition changes (o : option value) (cur : value) : option bool :=
  match o with
  | None => Some false
  | Some v => option_map negb (same_value v cur)
  end.

Definition changes_flag (o : option bool) (cur : bool) : bool :=
  match o with None => false | Some b => negb (Bool.eqb b cur) end.

(** May [d] be applied over the non-configurable property [p]? *)
Definition admissible (p : prop) (d : descriptor) : option bool :=
  match p with
  | PData v w e _ =>
      if or_default (d_configurable d) false || changes_flag (d_enumerable d) e
         || is_accessor_descriptor d
      then Some false
      else if w then Some true
      else if or_default (d_writable d) false then Some false
      else option_map negb (changes (d_value d) v)
  | PAcc g s e _ =>
      if or_default (d_configurable d) false || changes_flag (d_enumerable d) e
         || is_data_descriptor d
      then Some false
      else match changes (d_get d) g, changes (d_set d) s with
           | Some cg, Some cs => Some (negb (cg || cs))
           | _, _ => None
           end
  end.

(** The property that results from applying [d] over [cur]. *)
Definition apply_descriptor (cur : option prop) (d : descriptor) : prop :=
  match cur with
  | None =>
      if is_accessor_descriptor d
      then PAcc (or_default (d_get d) VUndef) (or_default (d_set d) VUndef)
             (or_default (d_enumerable d) false)
             (or_default (d_configurable d) false)
      else PData (or_default (d_value d) VUndef)
             (or_default (d_writable d) false)
             (or_default (d_enumerable d) false)
             (or_default (d_configurable d) false)
  | Some (PData v w e c) =>
      if is_accessor_descriptor d
      then PAcc (or_default (d_get d) VUndef) (or_default (d_set d) VUndef)
             (or_default (d_enumerable d) e) (or_default (d_configurable d) c)
      else PData (or_default (d_value d) v) (or_default (d_writable d) w)
             (or_default (d_enumerable d) e) (or_default (d_configurable d) c)
  | Some (PAcc g s e c) =>
      if is_data_descriptor d
      then PData (or_default (d_value d) VUndef)
             (or_default (d_writable d) false)
             (or_default (d_enumerable d) e) (or_default (d_configurable d) c)
      else PAcc (or_default (d_get d) g) (or_default (d_set d) s)
             (or_default (d_enumerable d) e) (or_default (d_configurable d) c)
  end.

Definition prop_configurable (p : prop) : bool :=
  match p with PData _ _ _ c | PAcc _ _ _ c => c end.

Definition prop_enumerable (p : prop) : bool :=
  match p with PData _ _ e _ | PAcc _ _ e _ => e end.

(** [Object.defineProperty(target, k, d)]; [d] is [None] when the
    argument is [undefined]. *)
Definition ObjectDefine (target : value) (k : string) (d : option descriptor)
  : M unit :=
  match target with
  | VRef l =>
      h <- get_heap ;;
      match h !! l, d with
      | None, _ => stuck "dangling reference"
      | Some _, None => throw "TypeError: property description must be an object"
      | Some o, Some d =>
          if negb (callable_or_undefined h (d_get d)
                   && callable_or_undefined h (d_set d))
          then throw "TypeError: getter or setter must be a function"
          else if is_accessor_descriptor d && is_data_descriptor d
          then throw "TypeError: invalid property descriptor"
          else
            let cur := alookup k (o_props o) in
            let install :=
              update l (set_props (aset k (apply_descriptor cur d) (o_props o)))
            in
            match cur with
            | None =>
                if o_ext o then install
                else throw "TypeError: the object is not extensible"
            | Some p =>
                if prop_configurable p then install
                else match admissible p d with
                     | Some true => install
                     | Some false => throw "TypeError: cannot redefine property"
                     | None => stuck "identity of an array"
                     end
            end
      end
  | VArr _ => stuck "property definition on an array"
  | _ => throw "TypeError: Object.defineProperty called on non-object"
  end.

(** [Object.keys(o)] for a heap object: the enumerable own keys, in the
    order of their creation (index keys are not sorted first). *)
Definition own_keys (o : obj) : list string :=
  map fst (List.filter (fun kp => prop_enumerable (snd kp)) (o_props o)).

End JS.

(** ** The helpers of [deps] *)

(** Where the objects that exist before any call live. *)
Definition Chainable_prototype : loc := 0.
Definition ChainedMap_prototype : loc := 1.
Definition MethodChain_prototype : loc := 2.
Definition dopemerge : value := VRef 3.

(** The predicates of [deps/is], after their declarations in
    [typings/is.d.ts]. *)
Definition isUndefined (v : value) : bool :=
  match v with VUndef => true | _ => false end.
Definition isTrue (v : value) : bool :=
  match v with VBool true => true | _ => false end.
Definition isArray (v : value) : bool := JS.is_array v.
Definition isObj (v : value) : bool :=
  match v with VArr _ | VRef _ => true | _ => false end.
Definition isFunction (h : heap) (v : value) : bool := JS.is_callable h v.

(** Modelled from the spec: [toarr] ([src/deps/to-arr] is absent).  A
    sequence is kept, a missing value gives the empty sequence, any other
    single value gives the sequence of that value.  The empty string,
    strings that hold a separator and collections are left out. *)
Definition toarr (v : value) : M (list value) :=
  match v with
  | VArr l => ret l
  | VStr s =>
      if String.eqb s "" then stuck "toarr of the empty string"
      else match index 0 "," s with
           | None => ret [v]
           | Some _ => stuck "toarr of a string with a separator"
           end
  | VRef l =>
      h <- get_heap ;;
      if JS.is_map h v then stuck "toarr of a collection"
      else match JS.find_prop (length h) h l "values" with
           | None => ret [v]
           | Some _ => stuck "toarr of a collection"
           end
  | _ => if JS.truthy v then ret [v] else ret []
  end.

(** Modelled from the spec: [argumentor] ([src/deps/argumentor] is
    absent) turns the [arguments] of a call into the sequence of the
    arguments. *)
Definition argumentor (args : list value) : list value := args.

(** Modelled from the spec: [markForGarbageCollection] ([src/deps/gc] is
    absent) marks the instance for reclamation; the mark does not change
    the heap. *)
Definition markForGarbageCollection (this : value) : M unit := ret tt.

Definition arg (n : nat) (args : list value) : value := nth n args VUndef.

(** [fs.k] on a field list. *)
Definition field (k : string) (fs : fields) : value :=
  JS.or_default (alookup k fs) VUndef.

(** ** Map objects *)

Fixpoint mlookup (k : value) (m : list (value * value)) : option value :=
  match m with
  | [] => None
  | (k', v) :: m' => if JS.value_eqb k k' then Some v else mlookup k m'
  end.

Fixpoint mset (k v : value) (m : list (value * value))
  : list (value * value) :=
  match m with
  | [] => [(k, v)]
  | (k', v') :: m' =>
      if JS.value_eqb k k' then (k', v) :: m' else (k', v') :: mset k v m'
  end.

(** Run [f] on the entries of the [Map] object [s]. *)
Definition with_map {A} (s : value)
  (f : loc -> obj -> list (value * value) -> M A) : M A :=
  match s with
  | VRef l =>
      h <- get_heap ;;
      match h !! l with
      | Some o =>
          match o_kind o with
          | KMap es => f l o es
          | _ => stuck "a store that is not a Map"
          end
      | None => stuck "dangling reference"
      end
  | VUndef | VNull =>
      throw "TypeError: cannot read a property of undefined or null"
  | _ => stuck "a store that is not a Map"
  end.

(** [s.get(k)], [s.set(k, v)], [s.clear()], [[...s]] *)
Definition map_get (s k : value) : M value :=
  with_map s (fun _ _ es =>
    if JS.is_array k then stuck "identity of an array"
    else ret (JS.or_default (mlookup k es) VUndef)).

Definition map_set (s k v : value) : M unit :=
  with_map s (fun l _ es =>
    if JS.is_array k then stuck "identity of an array"
    else JS.update l (JS.set_kind (KMap (mset k v es)))).

Definition map_clear (s : value) : M unit :=
  with_map s (fun l _ _ => JS.update l (JS.set_kind (KMap []))).

Definition map_entries (s : value) : M (list (value * value)) :=
  with_map s (fun _ _ es => ret es).

(** [Object.keys(v)] *)
Definition ObjectKeys (v : value) : M (list string) :=
  match v with
  | VRef l =>
      h <- get_heap ;;
      match h !! l with
      | Some o => ret (JS.own_keys o)
      | None => stuck "dangling reference"
      end
  | VUndef | VNull =>
      throw "TypeError: cannot convert undefined or null to object"
  | VStr _ | VArr _ => stuck "index keys"
  | _ => ret []
  end.

(** A new plain object with the given fields. *)
Definition alloc_plain (fs : fields) : M value :=
  l <- JS.alloc
         (Obj None true (map (fun kv => (fst kv, PData (snd kv) true true true)) fs)
            KPlain) ;;
  ret (VRef l).

(** ** ChainedMap.js *)

Module ChainedMap.

Definition ignored (k : string) : bool :=
  String.eqb k "inspect" || String.eqb k "parent" || String.eqb k "store"
  || String.eqb k "shorthands" || String.eqb k "decorated".

(** [Object.prototype.toString.call(val) === '[object Object]' &&
    Object.keys(val).length === 0] *)
Definition empty_object (h : heap) (val : value) : bool :=
  match val with
  | VRef l =>
      match h !! l with
      | Some o =>
          match o_kind o, JS.own_keys o with
          | KPlain, [] => true
          | _, _ => false
          end
      | None => false
      end
  | _ => false
  end.

(** [clean(obj)]: the reducer runs over [Object.keys(obj)]. *)
Definition clean (h : heap) (obj : fields) : fields :=
  fold_left
    (fun acc key =>
       let val := field key obj in
       match val with
       | VUndef | VNull => acc
       | VArr [] => acc
       | _ => if empty_object h val then acc else aset key val acc
       end)
    (map fst obj) [].

Section WithCall.
Variable E : env.
Variable call : caller.

(** Modelled from the spec: the constructor of [Chainable]
    ([src/Chainable.js] is absent) records the link to the owning
    parent. *)
Definition Chainable_constructor (this parent : value) : M unit :=
  JS.set_prop call true this "parent" parent.

(** [constructor(parent)] *)
Definition constructor (this parent : value) : M unit :=
  Chainable_constructor this parent ;;
  JS.set_prop call true this "shorthands" (VArr []) ;;
  store <- JS.alloc (Obj None true [] (KMap [])) ;;
  JS.set_prop call true this "store" (VRef store).

(** [get(key)] *)
Definition get (this key : value) : M value :=
  store <- JS.get_prop call this "store" ;;
  map_get store key.

(** [set(key, value)] *)
Definition set (this key val : value) : M value :=
  store <- JS.get_prop call this "store" ;;
  map_set store key val ;;
  ret this.

(** [tap(name, fn)] *)
Definition tap (this name fn : value) : M value :=
  old <- get this name ;;
  updated <- JS.call_value call fn [old; dopemerge] ;;
  set this name updated.

(** [from(obj)] *)
Definition from (this obj : value) : M value :=
  keys <- ObjectKeys obj ;;
  for_each
    (fun key =>
       val <- JS.get_prop call obj key ;;
       c1 <- JS.get_prop call this key ;;
       chain <- (if JS.truthy c1
                 then c2 <- JS.get_prop call this key ;;
                      h <- get_heap ;;
                      ret (JS.instance_of h c2 Chainable_prototype)
                 else ret false) ;;
       if (chain : bool)
       then recv <- JS.get_prop call this key ;;
            JS.call_method call recv "merge" [val] ;;
            ret tt
       else c3 <- JS.get_prop call this key ;;
            h <- get_heap ;;
            if JS.is_callable h c3
            then JS.call_method call this key [val] ;; ret tt
            else set this (VStr key) val ;; ret tt)
    keys ;;
  ret this.

(** [this.shorthands.push(method)] *)
Definition push_shorthand (this method : value) : M unit :=
  sh <- JS.get_prop call this "shorthands" ;;
  match sh, this with
  | VArr l, VRef t =>
      h <- get_heap ;;
      match JS.own_prop h t "shorthands" with
      | Some (PData _ w e c) =>
          JS.update t
            (fun o => JS.set_props
               (aset "shorthands" (PData (VArr (l ++ [method])) w e c)
                  (o_props o)) o)
      | _ => stuck "shorthands that is not an own field"
      end
  | VUndef, _ | VNull, _ =>
      throw "TypeError: cannot read a property of undefined or null"
  | _, _ => stuck "shorthands that is not an array"
  end.

(** [extend(methods)] *)
Definition extend (this methods : value) : M value :=
  match methods with
  | VArr ms =>
      for_each
        (fun method =>
           push_shorthand this method ;;
           k <- JS.key_of E method ;;
           f <- JS.alloc_fun (CShorthand this method) ;;
           JS.set_prop call true this k f)
        ms ;;
      ret this
  | VUndef | VNull =>
      throw "TypeError: cannot read a property of undefined or null"
  | _ => stuck "extend of a value that is not an array"
  end.

(** [clear()] *)
Definition clear (this : value) : M value :=
  store <- JS.get_prop call this "store" ;;
  map_clear store ;;
  keys <- ObjectKeys this ;;
  for_each
    (fun key =>
       if ignored key then ret tt
       else
         v1 <- JS.get_prop call this key ;;
         h1 <- get_heap ;;
         (if JS.instance_of h1 v1 Chainable_prototype
          then recv <- JS.get_prop call this key ;;
               JS.call_method call recv "clear" [] ;; ret tt
          else ret tt) ;;
         v2 <- JS.get_prop call this key ;;
         h2 <- get_heap ;;
         if JS.is_map h2 v2
         then recv <- JS.get_prop call this key ;; map_clear recv
         else ret tt)
    keys ;;
  ret this.

(** [entries(chains = false)].  The branch that inlines nested chains is
    outside the modelled fragment. *)
Definition entries (this chains : value) : M fields :=
  store <- JS.get_prop call this "store" ;;
  es <- map_entries store ;;
  reduced <- fold_left
               (fun acc kv =>
                  a <- acc ;;
                  k <- JS.key_of E (fst kv) ;;
                  ret (aset k (snd kv) a))
               es (ret ([] : fields)) ;;
  match chains with
  | VUndef | VBool false => ret reduced
  | _ => stuck "entries(chains)"
  end.

(** [merge(obj, cb)] delegates to MergeChain, which is not part of the
    sources. *)
Definition merge (this obj cb : value) : M value :=
  stuck "MergeChain".

End WithCall.
End ChainedMap.

(** Modelled from the spec: [dopemerge] ([src/deps/dopemerge] is absent)
    concatenates two sequences; a missing left operand gives the right
    one.  Other operands are outside the modelled fragment. *)
Definition dopemerge_model (a b : value) : M value :=
  match a, b with
  | VUndef, VArr _ => ret b
  | VArr x, VArr y => ret (VArr (x ++ y))
  | _, _ => stuck "dopemerge"
  end.

(** [num + 1], exact on the integers a number represents exactly. *)
Definition add_one (num : value) : M value :=
  match num with
  | VNum n =>
      if (Z.abs n <? 2 ^ 53)%Z then ret (VNum (n + 1))
      else stuck "a number that is not a safe integer"
  | VUndef | VNaN => ret VNaN
  | VNull => ret (VNum 1)
  | VBool b => ret (VNum (if b then 2 else 1))
  | VStr s => ret (VStr (s ++ "1")%string)
  | VArr _ | VRef _ => stuck "addition on an object"
  end.

(** ** MethodChain.js *)

Module MethodChain.
Section WithCall.
Variable E : env.
Variable call : caller.

(** [set = this.set.bind(this)], and the inherited methods reached
    through [this]. *)
Abbreviation set := (ChainedMap.set call).
Abbreviation get := (ChainedMap.get call).

(** [f.bind(boundThis)] *)
Definition function_bind (f boundThis : value) : M value :=
  h <- get_heap ;;
  if JS.is_callable h f then JS.alloc_fun (CBound f boundThis)
  else match f with
       | VRef l =>
           match JS.find_prop (length h) h l "bind" with
           | None => throw "TypeError: not a function"
           | Some _ => stuck "an object with a bind member of its own"
           end
       | VUndef | VNull =>
           throw "TypeError: cannot read a property of undefined or null"
       | VArr _ => stuck "bind on an array"
       | _ => throw "TypeError: not a function"
       end.

(** [getSetFactory(_this, name, desc)], sloppy code. *)
Definition getSetFactory (_this name get_ set_ : value) : M unit :=
  k <- JS.key_of E name ;;
  JS.set_prop call false _this (camelCase E ("set-" ++ k)%string) set_ ;;
  JS.set_prop call false _this (camelCase E ("get-" ++ k)%string) get_.

(** [aliasFactory(name, parent, aliases)], sloppy code. *)
Definition aliasFactory (name parent aliases : value) : M unit :=
  if JS.truthy aliases then
    match aliases with
    | VArr l =>
        for_each
          (fun a =>
             k <- JS.key_of E name ;;
             d <- JS.getDescriptor parent k ;;
             ka <- JS.key_of E a ;;
             JS.ObjectDefine parent ka d)
          l
    | VStr _ | VRef _ => stuck "aliases that is not an array"
    | _ => ret tt
    end
  else ret tt.

(** [constructor(parent)] *)
Definition store_fn (this : value) (k : string) (c : closure) : M unit :=
  f <- JS.alloc_fun c ;;
  JS.set_prop call true this k f.

Definition constructor (this parent : value) : M unit :=
  ChainedMap.constructor call this parent ;;
  store_fn this "toNumber" (COwn MO_toNumber this parent) ;;
  ChainedMap.extend E call this
    (VArr (map VStr ["onInvalid"; "onValid"; "initial"; "default"; "type";
                     "callReturns"; "decorationTarget"])) ;;
  m <- JS.alloc_fun (COwn MO_method this parent) ;;
  JS.set_prop call true this "methods" m ;;
  JS.set_prop call true this "method" m ;;
  store_fn this "encase" (COwn MO_encase this parent) ;;
  onValid <- JS.get_prop call this "onValid" ;;
  t <- function_bind onValid this ;;
  JS.set_prop call true this "then" t ;;
  onInvalid <- JS.get_prop call this "onInvalid" ;;
  c <- function_bind onInvalid this ;;
  JS.set_prop call true this "catch" c ;;
  store_fn this "bind" (COwn MO_bind this parent) ;;
  store_fn this "returns" (COwn MO_returns this parent) ;;
  r <- JS.get_prop call this "returns" ;;
  JS.set_prop call true this "chainable" r ;;
  store_fn this "onSet" (COwn MO_onSet this parent) ;;
  store_fn this "onGet" (COwn MO_onGet this parent) ;;
  store_fn this "onCall" (COwn MO_onCall this parent) ;;
  store_fn this "alias" (COwn MO_alias this parent) ;;
  store_fn this "factory" (COwn MO_factory this parent) ;;
  store_fn this "name" (COwn MO_name this parent) ;;
  store_fn this "camelCase" (COwn MO_camelCase this parent) ;;
  store_fn this "define" (COwn MO_define this parent) ;;
  store_fn this "getSet" (COwn MO_getSet this parent).

(** *** The functions the constructor stores on [this] *)

(** [x => set('encase', parent[x] || x || true)] *)
Definition encase (this parent x : value) : M value :=
  k <- JS.key_of E x ;;
  v <- JS.get_prop call parent k ;;
  set this (VStr "encase") (JS.or (JS.or v x) (VBool true)).

(** [(should = parent) => set('bind', should)] *)
Definition bind_ (this parent should : value) : M value :=
  set this (VStr "bind") (if isUndefined should then parent else should).

(** [(x, callReturns) => set('returns', x || parent).set('callReturns', callReturns)] *)
Definition returns (this parent x callReturns : value) : M value :=
  r <- set this (VStr "returns") (JS.or x parent) ;;
  set r (VStr "callReturns") callReturns.

Definition onSet (this x : value) : M value := set this (VStr "set") x.
Definition onGet (this x : value) : M value := set this (VStr "get") x.
Definition onCall (this x : value) : M value := set this (VStr "call") x.

(** [aliases => this.tap('alias', (old, merge) => merge(old, toarr(aliases)))] *)
Definition alias (this aliases : value) : M value :=
  fn <- JS.alloc_fun (CMergeInto aliases) ;;
  ChainedMap.tap call this (VStr "alias") fn.

(** [factory => this.tap('factories', (old, merge) => merge(old, toarr(factory)))] *)
Definition factory (this f : value) : M value :=
  fn <- JS.alloc_fun (CMergeInto f) ;;
  ChainedMap.tap call this (VStr "factories") fn.

(** [(old, merge) => merge(old, toarr(x))] *)
Definition merge_into (x old merge : value) : M value :=
  xs <- toarr x ;;
  JS.call_value call merge [old; VArr xs].

(** [this.name = methods => ...] *)
Definition name (this methods : value) : M value :=
  if negb (isArray methods) && isObj methods then
    names <- ObjectKeys methods ;;
    for_each
      (fun _ =>
         f <- JS.alloc_fun (CNameFactory this methods) ;;
         JS.call_method call this "factory" [f] ;;
         ret tt)
      names ;;
    set this (VStr "names") (VArr (map VStr names))
  else set this (VStr "names") methods.

(** [if (obj.k) this.m(obj.k)] *)
Definition ingest (this obj : value) (k m : string) : M unit :=
  v <- JS.get_prop call obj k ;;
  if JS.truthy v
  then v' <- JS.get_prop call obj k ;;
       JS.call_method call this m [v'] ;; ret tt
  else ret tt.

(** The factory that [name] queues for the keys of a mapping. *)
Definition name_factory (this methods name_ : value) : M value :=
  k <- JS.key_of E name_ ;;
  obj <- JS.get_prop call methods k ;;
  h <- get_heap ;;
  (if isFunction h obj then
     JS.call_method call this "define" [VBool false] ;;
     JS.call_method call this "onCall" [obj] ;;
     ret tt
   else
     ChainedMap.from call this obj ;;
     ingest this obj "set" "onSet" ;;
     ingest this obj "get" "onGet" ;;
     ingest this obj "call" "onCall" ;;
     s <- JS.get_prop call obj "set" ;;
     g <- (if JS.truthy s then JS.get_prop call obj "get" else ret s) ;;
     if JS.truthy g
     then r <- JS.call_method call this "define" [] ;;
          JS.call_method call r "getSet" [] ;;
          ret tt
     else ret tt) ;;
  ret VUndef.

Definition camelCase_ (this : value) : M value :=
  set this (VStr "camel") (VBool true).

(** [(x = true) => set('define', x)] and [(x = true) => set('getSet', x)] *)
Definition define (this x : value) : M value :=
  set this (VStr "define") (if isUndefined x then VBool true else x).
Definition getSet (this x : value) : M value :=
  set this (VStr "getSet") (if isUndefined x then VBool true else x).

(** *** [_defaults(name, parent, built)] *)

(** [!h || h.defaulted] *)
Definition unset_or_defaulted (handler : value) : M bool :=
  if JS.truthy handler
  then d <- JS.get_prop call handler "defaulted" ;; ret (JS.truthy d)
  else ret true.

Definition _defaults (this name_ parent : value) (built : fields) : M unit :=
  defaultOnSet <- JS.alloc_fun (CDefaultOnSet parent name_) ;;
  defaultOnGet <- JS.alloc_fun (CDefaultOnGet parent name_) ;;
  JS.set_prop call true defaultOnSet "defaulted" (VBool true) ;;
  JS.set_prop call true defaultOnGet "defaulted" (VBool true) ;;
  g <- unset_or_defaulted (field "get" built) ;;
  (if (g : bool)
   then JS.call_method call this "onGet" [defaultOnGet] ;; ret tt
   else ret tt) ;;
  c <- unset_or_defaulted (field "call" built) ;;
  (if (c : bool)
   then JS.call_method call this "onCall" [defaultOnSet] ;; ret tt
   else ret tt) ;;
  s <- unset_or_defaulted (field "set" built) ;;
  (if (s : bool)
   then JS.call_method call this "onSet" [defaultOnSet] ;; ret tt
   else ret tt).

(** *** [_build(name, parent)], block by block *)

(** [method.decorated = true; this.onCall(method).onSet(method)] *)
Definition reuse (this method : value) : M unit :=
  JS.set_prop call true method "decorated" (VBool true) ;;
  r <- JS.call_method call this "onCall" [method] ;;
  JS.call_method call r "onSet" [method] ;;
  ret tt.

(** Lines 311-324.  [None] is the early [return]; otherwise the result
    is [existing] (absent when the name is not an own property) and
    [method] ([undefined] when nothing was found). *)
Definition _build_existing (this name_ parent : value)
  : M (option (option descriptor * value)) :=
  k <- JS.key_of E name_ ;;
  own <- JS.hasOwnProperty parent k ;;
  if (own : bool) then
    existing <- JS.getDescriptor parent k ;;
    match existing with
    | None => throw "TypeError: cannot read a property of undefined or null"
    | Some d =>
        match d_configurable d with
        | Some false => ret None
        | _ =>
            let method := JS.or_default (d_value d) VUndef in
            reuse this method ;;
            ret (Some (existing, method))
        end
    end
  else
    v <- JS.get_prop call parent k ;;
    if JS.truthy v then
      method <- JS.get_prop call parent k ;;
      reuse this method ;;
      ret (Some (None, method))
    else ret (Some (None, VUndef)).

(** Lines 333-335. *)
Definition _build_factories (name_ parent : value) (built : fields) : M unit :=
  let factories := field "factories" built in
  if JS.truthy factories then
    match factories with
    | VArr fs =>
        for_each (fun f => JS.call_value call f [name_; parent] ;; ret tt) fs
    | _ => stuck "factories that is not an array"
    end
  else ret tt.

(** Lines 337-350: the validating or the encasing wrapper.  The result
    is [method] and the snapshot read last. *)
Definition _build_type (this name_ parent method : value)
  : M (value * fields) :=
  built <- ChainedMap.entries E call this VUndef ;;
  if JS.truthy (field "type" built) then
    validatorMethod <- validatorMethodFactory E name_ parent built ;;
    r <- set this (VStr "call") validatorMethod ;;
    set r (VStr "set") validatorMethod ;;
    built' <- ChainedMap.entries E call this VUndef ;;
    ret (method, built')
  else if JS.truthy (field "encase" built) then
    encased <- methodEncasingFactory E name_ parent built method ;;
    JS.set_prop call true encased "encased" method ;;
    r <- set this (VStr "call") encased ;;
    set r (VStr "set") encased ;;
    built' <- ChainedMap.entries E call this VUndef ;;
    ret (encased, built')
  else ret (method, built).

(** Lines 361-381: the default method, [bind], [returns]. *)
Definition _build_method (parent : value) (built : fields) (method : value)
  : M value :=
  m1 <- (if JS.truthy method then ret method
         else JS.alloc_fun
                (CDefaultMethod (field "call" built) parent
                   (field "default" built))) ;;
  m2 <- (if JS.truthy (field "bind" built)
         then function_bind m1 (field "bind" built)
         else ret m1) ;;
  if JS.truthy (field "returns" built)
  then JS.alloc_fun
         (CReturns m2 parent (field "returns" built)
            (field "callReturns" built))
  else ret m2.

(** Lines 382-384. *)
Definition _build_initial (name_ parent : value) (built : fields) : M unit :=
  if isUndefined (field "initial" built) then ret tt
  else JS.call_method call parent "set" [name_; field "initial" built] ;;
       ret tt.

(** Lines 394-399, development mode only.  (The logging block that
    follows them does not change the heap and is left out.) *)
Definition _build_names (name_ : value) (built : fields) (method : value)
  : M unit :=
  if ENV_DEVELOPMENT E then
    k <- JS.key_of E name_ ;;
    let named (f : value) (s : string) :=
      JS.ObjectDefine f "name"
        (Some (Descriptor (Some (VStr (camelCase E s))) None None None None None))
    in
    named (field "get" built) ("get-" ++ k)%string ;;
    named (field "set" built) ("set-" ++ k)%string ;;
    named (field "call" built) ("call-" ++ k)%string ;;
    named method k
  else ret tt.

(** Lines 417-418: the new descriptor, laid over the existing one. *)
Definition _build_merge (existing : option descriptor) (built : fields)
  (method : value) : descriptor :=
  let descriptor :=
    if JS.truthy (field "define" built)
    then Descriptor None (Some (field "get" built)) (Some (field "set" built))
           None None None
    else Descriptor (Some method) None None None None None in
  match existing with
  | Some e => JS.ObjectAssign e descriptor
  | None => descriptor
  end.

(** Lines 422-427: the two [delete]s. *)
Definition _build_resolve (merged : descriptor) : descriptor :=
  let d :=
    if JS.truthy (JS.or_default (d_value merged) VUndef)
       && JS.truthy (JS.or_default (d_get merged) VUndef)
    then Descriptor None (d_get merged) (d_set merged)
           (d_writable merged) (d_enumerable merged) (d_configurable merged)
    else merged in
  match d_writable d with
  | Some _ =>
      Descriptor (d_value d) (d_get d) (d_set d)
        None (d_enumerable d) (d_configurable d)
  | None => d
  end.

(** Lines 417-427. *)
Definition _build_descriptor (existing : option descriptor) (built : fields)
  (method : value) : descriptor :=
  _build_resolve (_build_merge existing built method).

(** Lines 429-438. *)
Definition _build_install (this name_ parent : value) (built : fields)
  (descriptor : descriptor) : M unit :=
  dt <- get this (VStr "decorationTarget") ;;
  let target := JS.or dt parent in
  k <- JS.key_of E name_ ;;
  JS.ObjectDefine target k (Some descriptor) ;;
  (if JS.truthy (field "getSet" built) then
     m <- JS.get_prop call target "meta" ;;
     (if JS.truthy m
      then JS.call_method call target "meta"
             [SHORTHANDS_KEY E; name_; field "set" built] ;;
           ret tt
      else ret tt) ;;
     getSetFactory target name_ (field "get" built) (field "set" built)
   else ret tt) ;;
  aliasFactory name_ target (field "alias" built).

(** Lines 327-455: [_build] from the default wiring on. *)
Definition _build_wire (this name_ parent : value)
  (existing : option descriptor) (method : value) : M unit :=
  built <- ChainedMap.entries E call this VUndef ;;
  _defaults this name_ parent built ;;
  _build_factories name_ parent built ;;
  mb <- _build_type this name_ parent method ;;
  let '(method, built) := mb in
  method <- _build_method parent built method ;;
  _build_initial name_ parent built ;;
  _build_names name_ built method ;;
  _build_install this name_ parent built
    (_build_descriptor existing built method).

(** [_build(name, parent)] *)
Definition _build (this name_ parent : value) : M unit :=
  found <- _build_existing this name_ parent ;;
  match found with
  | None => ret tt
  | Some (existing, method) => _build_wire this name_ parent existing method
  end.

(** Lines 237-245 of [build]: the synthesis of every name.  The result
    is [parent]. *)
Definition build_names (this : value) : M value :=
  parent <- JS.get_prop call this "parent" ;;
  ns <- get this (VStr "names") ;;
  names <- toarr ns ;;
  shouldTapName <- get this (VStr "camel") ;;
  for_each
    (fun n =>
       name_ <- (if JS.truthy shouldTapName
                 then match n with
                      | VStr s => ret (VStr (camelCase E s))
                      | _ => stuck "camelCase of a value that is not a string"
                      end
                 else ret n) ;;
       _build this name_ parent)
    names ;;
  ret parent.

(** [build(returnValue)] *)
Definition build (this returnValue : value) : M value :=
  parent <- build_names this ;;
  ChainedMap.clear call this ;;
  JS.delete_prop this "parent" ;;
  markForGarbageCollection this ;;
  ret (if isUndefined returnValue then parent else returnValue).

(** [decorate(parentToDecorate)] *)
Definition decorate (this parentToDecorate : value) : M value :=
  ptd <- (if JS.truthy parentToDecorate then ret parentToDecorate
          else p <- JS.get_prop call this "parent" ;;
               JS.get_prop call p "parent") ;;
  if negb (JS.truthy ptd) then
    if ENV_DEVELOPMENT E then throw "Error: must provide parent argument"
    else ret this
  else
    JS.call_method call this "decorationTarget" [ptd] ;;
    m <- JS.get_prop call ptd "meta" ;;
    (if JS.truthy m then ret tt
     else f <- meta E ptd ;; JS.set_prop call true ptd "meta" f) ;;
    f <- JS.alloc_fun (CDecorateFactory this ptd) ;;
    JS.call_method call this "factory" [f].

(** The factory queued by [decorate]. *)
Definition decorate_factory (this parentToDecorate name_ : value) : M value :=
  JS.call_method call parentToDecorate "meta" [DECORATED_KEY E; name_] ;;
  r <- JS.call_method call this "returns" [parentToDecorate] ;;
  f <- JS.alloc_fun (CReturnsFunction parentToDecorate) ;;
  JS.call_method call r "callReturns" [f].

(** [autoIncrement()] and its factory. *)
Definition autoIncrement (this : value) : M value :=
  f <- JS.alloc_fun (CAutoIncrementFactory this) ;;
  JS.call_method call this "factory" [f].

Definition autoIncrement_factory (this name_ parent : value) : M value :=
  r <- set this (VStr "initial") (VNum 0) ;;
  f <- JS.alloc_fun (CAutoIncrementCall parent name_) ;;
  set r (VStr "call") f.

End WithCall.
End MethodChain.

(** ** The interpreter *)

(** The own enumerable properties of an object handed to a method that
    the model runs on a field list. *)
Definition fields_of (call : caller) (v : value) : M fields :=
  keys <- ObjectKeys v ;;
  fold_left
    (fun acc k =>
       a <- acc ;;
       x <- JS.get_prop call v k ;;
       ret (a ++ [(k, x)]))
    keys (ret ([] : fields)).

(** The body of each function of the sources; [this] is the receiver of
    the call (arrow functions use the [this] they closed over). *)
Definition run (E : env) (call : caller) (c : closure) (this : value)
  (args : list value) : M value :=
  let a0 := arg 0 args in
  let a1 := arg 1 args in
  match c with
  | CHost id => host E id this args
  | CChainedMap m =>
      match m with
      | CM_tap => ChainedMap.tap call this a0 a1
      | CM_from => ChainedMap.from call this a0
      | CM_extend => ChainedMap.extend E call this a0
      | CM_clear => ChainedMap.clear call this
      | CM_entries =>
          fs <- ChainedMap.entries E call this a0 ;; alloc_plain fs
      | CM_get => ChainedMap.get call this a0
      | CM_set => ChainedMap.set call this a0 a1
      | CM_merge => ChainedMap.merge this a0 a1
      | CM_clean =>
          fs <- fields_of call a0 ;;
          h <- get_heap ;;
          alloc_plain (ChainedMap.clean h fs)
      end
  | CMethodChain m =>
      match m with
      (* [schema] goes through [this.parent.method] and [schemaFactory],
         outside the modelled fragment *)
      | MC_schema => stuck "schema"
      | MC_build => MethodChain.build E call this a0
      | MC__defaults =>
          built <- fields_of call (arg 2 args) ;;
          MethodChain._defaults call this a0 a1 built ;;
          ret VUndef
      | MC__build => MethodChain._build E call this a0 a1 ;; ret VUndef
      | MC_decorate => MethodChain.decorate E call this a0
      | MC_autoIncrement => MethodChain.autoIncrement call this
      end
  | COwn m t parent =>
      match m with
      | MO_toNumber => MethodChain.build E call t (VNum 0)
      (* [method] reads [this.length], a member of Chainable.js *)
      | MO_method => stuck "the length of a Chainable"
      | MO_encase => MethodChain.encase E call t parent a0
      | MO_bind => MethodChain.bind_ call t parent a0
      | MO_returns => MethodChain.returns call t parent a0 a1
      | MO_onSet => MethodChain.onSet call t a0
      | MO_onGet => MethodChain.onGet call t a0
      | MO_onCall => MethodChain.onCall call t a0
      | MO_alias => MethodChain.alias call t a0
      | MO_factory => MethodChain.factory call t a0
      | MO_name => MethodChain.name call t a0
      | MO_camelCase => MethodChain.camelCase_ call t
      | MO_define => MethodChain.define call t a0
      | MO_getSet => MethodChain.getSet call t a0
      end
  | CShorthand t method => ChainedMap.set call t method a0
  | CMergeInto x => MethodChain.merge_into call x a0 a1
  | CNameFactory t methods => MethodChain.name_factory E call t methods a0
  | CDefaultOnSet parent name_ => JS.call_method call parent "set" [name_; a0]
  | CDefaultOnGet parent name_ => JS.call_method call parent "get" [name_]
  | CDefaultMethod callfn parent defaultValue =>
      JS.call_function call callfn parent
        [if isUndefined a0 then defaultValue else a0]
  | CBound target boundThis => call target boundThis args
  | CReturns ref parent returns callReturns =>
      let args := argumentor args in
      result <- JS.call_function call ref parent args ;;
      if isTrue callReturns
      then JS.call_function call returns parent (result :: args)
      else ret returns
  | CDecorateFactory t parentToDecorate =>
      MethodChain.decorate_factory E call t parentToDecorate a0
  | CReturnsFunction parentToDecorate => ret (JS.or a0 parentToDecorate)
  | CAutoIncrementFactory t => MethodChain.autoIncrement_factory call t a0 a1
  | CAutoIncrementCall parent name_ =>
      inc <- JS.alloc_fun CIncrement ;;
      JS.call_method call parent "tap" [name_; inc]
  | CIncrement => add_one a0
  | CDopemerge => dopemerge_model a0 a1
  | CClass _ =>
      throw "TypeError: class constructor cannot be invoked without new"
  end.

(** [f.apply(this, args)], with at most [fuel] nested calls. *)
Fixpoint invoke (E : env) (fuel : nat) (f this : value) (args : list value)
  : M value :=
  match fuel with
  | O => stuck "out of fuel"
  | S n =>
      fun h =>
        match JS.closure_of h f with
        | Some c => run E (invoke E n) c this args h
        | None => Throw "TypeError: not a function"
        end
  end.

(** ** The heap before any call *)

Definition method_prop (l : loc) : prop := PData (VRef l) true false true.

(** The three class prototypes with their methods, and [dopemerge].  The
    members of [Chainable.prototype] other than [constructor] belong to
    Chainable.js and are not modelled; neither are the built-in
    prototypes ([Object.prototype] and the like). *)
Definition initial_heap : heap :=
  [ Obj None true [("constructor", method_prop 19)] KPlain
  ; Obj (Some Chainable_prototype) true
      [("constructor", method_prop 20);
       ("tap", method_prop 4); ("from", method_prop 5);
       ("extend", method_prop 6); ("clear", method_prop 7);
       ("entries", method_prop 8); ("get", method_prop 9);
       ("set", method_prop 10); ("merge", method_prop 11);
       ("clean", method_prop 12)] KPlain
  ; Obj (Some ChainedMap_prototype) true
      [("constructor", method_prop 21);
       ("schema", method_prop 13); ("build", method_prop 14);
       ("_defaults", method_prop 15); ("_build", method_prop 16);
       ("decorate", method_prop 17); ("autoIncrement", method_prop 18)] KPlain
  ; JS.new_fun CDopemerge
  ; JS.new_fun (CChainedMap CM_tap)
  ; JS.new_fun (CChainedMap CM_from)
  ; JS.new_fun (CChainedMap CM_extend)
  ; JS.new_fun (CChainedMap CM_clear)
  ; JS.new_fun (CChainedMap CM_entries)
  ; JS.new_fun (CChainedMap CM_get)
  ; JS.new_fun (CChainedMap CM_set)
  ; JS.new_fun (CChainedMap CM_merge)
  ; JS.new_fun (CChainedMap CM_clean)
  ; JS.new_fun (CMethodChain MC_schema)
  ; JS.new_fun (CMethodChain MC_build)
  ; JS.new_fun (CMethodChain MC__defaults)
  ; JS.new_fun (CMethodChain MC__build)
  ; JS.new_fun (CMethodChain MC_decorate)
  ; JS.new_fun (CMethodChain MC_autoIncrement)
  ; JS.new_fun (CClass Chainable_prototype)
  ; JS.new_fun (CClass ChainedMap_prototype)
  ; JS.new_fun (CClass MethodChain_prototype) ].

(** [new ChainedMap(parent)] and [new MethodChain(parent)] *)
Definition new_ChainedMap (call : caller) (parent : value) : M value :=
  l <- JS.alloc (Obj (Some ChainedMap_prototype) true [] KPlain) ;;
  ChainedMap.constructor call (VRef l) parent ;;
  ret (VRef l).

Definition new_MethodChain (E : env) (call : caller) (parent : value)
  : M value :=
  l <- JS.alloc (Obj (Some MethodChain_prototype) true [] KPlain) ;;
  MethodChain.constructor E call (VRef l) parent ;;
  ret (VRef l).

(** * Predicates on heaps, and sample states *)



(** An environment to run examples in: the identity for [camelCase], a
    [meta] that hands out the host function 0, and three host functions
    (0 returns undefined, 1 returns [r], 2 returns the sequence of its
    arguments); every function converts to the same text. *)
Definition sample_host (r : value) (id : nat) (this : value)
  (args : list value) : M value :=
  match id with
  | 1 => ret r
  | 2 => ret (VArr args)
  | _ => ret VUndef
  end.

Definition sample_env (dev : bool) (r : value) : env :=
  Env dev (VStr "decorated") (VStr "shorthands") (fun s => s)
    (fun _ => JS.alloc_fun (CHost 0))
    (fun _ _ _ => stuck "validatorMethodFactory")
    (fun _ _ _ _ => stuck "methodEncasingFactory")
    (sample_host r)
    (fun _ => "function () { [code] }").

Definition demo : env := sample_env false (VNum 7).


(** [l] is a Map object that holds [es]. *)
Definition map_at (h : heap) (l : loc) (es : list (value * value)) : Prop :=
  exists o, h !! l = Some o /\ o_kind o = KMap es.

(** The chain [a] keeps its entries in the Map object [s]. *)
Definition store_at (h : heap) (a s : loc) : Prop :=
  exists w e c, JS.own_prop h a "store" = Some (PData (VRef s) w e c).

(** The own member [k] of [a] is the function [c]. *)
Definition own_method (h : heap) (a : loc) (k : string) (c : closure) : Prop :=
  exists f w e cf,
    JS.own_prop h a k = Some (PData (VRef f) w e cf)
    /\ JS.closure_of h (VRef f) = Some c.

(** The heap [h] with the entries of the Map object [s] replaced. *)
Definition put_map (s : loc) (es : list (value * value)) (h : heap) : heap :=
  match h !! s with
  | Some o => <[s := JS.set_kind (KMap es) o]> h
  | None => h
  end.

(** The heap [h] with the own property [k0] of [m] written. *)
Definition mark (m : loc) (k0 : string) (p : prop) (h : heap) : heap :=
  match h !! m with
  | Some o => <[m := JS.set_props (aset k0 p (o_props o)) o]> h
  | None => h
  end.

(** The object [m] takes the assignment [m[k0] = v], which leaves it
    with the own property [p]: either the member is new on an extensible
    object, or it is an own writable data property. *)
Definition accepts (h : heap) (m : loc) (k0 : string) (v : value) (p : prop)
  : Prop :=
  exists o, h !! m = Some o
    /\ ((JS.find_prop (length h) h m k0 = None /\ o_ext o = true
         /\ p = PData v true true true)
        \/ (exists v0 e c,
              alookup k0 (o_props o) = Some (PData v0 true e c)
              /\ p = PData v true e c)).


(** A member that [clear] passes over: its key is one of the ignored
    ones, or it is a data property whose value is neither a Chainable nor
    a Map. *)
Definition plain_member (h : heap) (kp : string * prop) : Prop :=
  ChainedMap.ignored (fst kp) = false ->
  exists v w e c,
    snd kp = PData v w e c
    /\ JS.instance_of h v Chainable_prototype = false
    /\ JS.is_map h v = false.

(** An accumulator as the constructor and the configuration calls leave
    it: it keeps its entries in a Map, its other members are plain, its
    link to the parent can be deleted, and no prototype of it has a
    member named [parent]. *)
Record consumable (h : heap) (a s : loc) (es : list (value * value))
  : Prop := Consumable {
  cons_store : store_at h a s;
  cons_map : map_at h s es;
  cons_members :
    exists o, h !! a = Some o
      /\ (forall k p, alookup k (o_props o) = Some p -> plain_member h (k, p))
      /\ (forall p, o_proto o = Some p ->
                    JS.find_prop (length h) h p "parent" = None);
  cons_parent :
    match JS.own_prop h a "parent" with
    | Some p => JS.prop_configurable p = true
    | None => True
    end
}.

(** Two heaps with the same objects up to the entries of Maps and the
    own property [k] of [a], which the second may lack. *)
Definition shrinks (a : loc) (k : string) (h h' : heap) : Prop :=
  length h' = length h
  /\ forall l,
       match h !! l, h' !! l with
       | Some o, Some o' =>
           o_proto o' = o_proto o /\ o_ext o' = o_ext o
           /\ (match o_kind o, o_kind o' with
               | KMap _, KMap _ => True
               | x, y => x = y
               end)
           /\ (forall k', (l = a -> k' <> k) ->
                 alookup k' (o_props o') = alookup k' (o_props o))
           /\ (l = a -> alookup k (o_props o') = None
                        \/ alookup k (o_props o') = alookup k (o_props o))
       | None, None => True
       | _, _ => False
       end.

Definition result_of {A} (o : outcome (A * heap)) : outcome A :=
  match o with
  | Ok (a, _) => Ok a
  | Throw e => Throw e
  | Stuck w => Stuck w
  end.

Definition heap_of {A} (o : outcome (A * heap)) : heap :=
  match o with
  | Ok (_, h) => h
  | _ => []
  end.

Fixpoint repeat_call (call : caller) (n : nat) (recv : value) (k : string)
  : M unit :=
  match n with
  | O => ret tt
  | S n' => JS.call_method call recv k [] ;; repeat_call call n' recv k
  end.

(** [parent = new ChainedMap(); new MethodChain(parent).name('eh').build();
    parent.eh(v); parent.get('eh')] *)
Definition default_wiring (E : env) (fuel : nat) (v : value) : M value :=
  let call := invoke E fuel in
  parent <- new_ChainedMap call VUndef ;;
  chain <- new_MethodChain E call parent ;;
  chain <- JS.call_method call chain "name" [VStr "eh"] ;;
  JS.call_method call chain "build" [] ;;
  JS.call_method call parent "eh" [v] ;;
  JS.call_method call parent "get" [VStr "eh"].

(** [new MethodChain(parent).name('count').autoIncrement().build()], then
    [calls] times [parent.count()], then [parent.get('count')] *)
Definition counting (E : env) (fuel calls : nat) : M value :=
  let call := invoke E fuel in
  parent <- new_ChainedMap call VUndef ;;
  chain <- new_MethodChain E call parent ;;
  chain <- JS.call_method call chain "name" [VStr "count"] ;;
  chain <- JS.call_method call chain "autoIncrement" [] ;;
  JS.call_method call chain "build" [] ;;
  repeat_call call calls parent "count" ;;
  JS.call_method call parent "get" [VStr "count"].

(** [new MethodChain(parent).name('eh').returns(R, true).build();
    parent.eh(5)], with the host function 2 as [R]. *)
Definition returning_call (E : env) (fuel : nat) : M value :=
  let call := invoke E fuel in
  parent <- new_ChainedMap call VUndef ;;
  R <- JS.alloc_fun (CHost 2) ;;
  chain <- new_MethodChain E call parent ;;
  chain <- JS.call_method call chain "name" [VStr "eh"] ;;
  chain <- JS.call_method call chain "returns" [R; VBool true] ;;
  JS.call_method call chain "build" [] ;;
  JS.call_method call parent "eh" [VNum 5].

(** [new MethodChain(parent).name('eh').onCall(handler).decorate(target)
    .build()], with the host function 1 as [handler].  The result is
    [target], what [handler] returns on its own, and what [target.eh(5)]
    returns. *)
Definition decorated_call (E : env) (fuel : nat) : M (list value) :=
  let call := invoke E fuel in
  parent <- new_ChainedMap call VUndef ;;
  target <- alloc_plain [] ;;
  handler <- JS.alloc_fun (CHost 1) ;;
  chain <- new_MethodChain E call parent ;;
  chain <- JS.call_method call chain "name" [VStr "eh"] ;;
  chain <- JS.call_method call chain "onCall" [handler] ;;
  chain <- JS.call_method call chain "decorate" [target] ;;
  JS.call_method call chain "build" [] ;;
  own <- JS.call_function call handler parent [VNum 5] ;;
  r <- JS.call_method call target "eh" [VNum 5] ;;
  ret [target; own; r].

(** The heap after [parent = new ChainedMap(); chain = new
    MethodChain(parent); chain.name('eh')]: [parent] is at 22 and its
    store at 23, [chain] is at 24 and its store at 25. *)
Definition configured : heap :=
  Eval vm_compute in
    heap_of
      ((let call := invoke demo 3 in
        parent <- new_ChainedMap call VUndef ;;
        chain <- new_MethodChain demo call parent ;;
        JS.call_method call chain "name" [VStr "eh"]) initial_heap).

(** [configured] after the loop of [build]. *)
Definition synthesized : heap :=
  Eval vm_compute in
    heap_of
      (MethodChain.build_names demo (invoke demo 3) (VRef 24) configured).



(** The entries of the Map at [s]. *)
Definition entries_at (h : heap) (s : loc) : list (value * value) :=
  match h !! s with
  | Some o => match o_kind o with KMap es => es | _ => [] end
  | None => []
  end.

(** [consumable], as a test. *)
Definition plain_memberb (h : heap) (kp : string * prop) : bool :=
  ChainedMap.ignored (fst kp)
  || match snd kp with
     | PData v _ _ _ =>
         negb (JS.instance_of h v Chainable_prototype) && negb (JS.is_map h v)
     | PAcc _ _ _ _ => false
     end.

Definition consumableb (h : heap) (a s : loc) : bool :=
  match h !! a, h !! s with
  | Some o, Some os =>
      match alookup "store" (o_props o) with
      | Some (PData (VRef s') _ _ _) => Nat.eqb s' s
      | _ => false
      end
      && match o_kind os with KMap _ => true | _ => false end
      && forallb (plain_memberb h) (o_props o)
      && match o_proto o with
         | Some p =>
             match JS.find_prop (length h) h p "parent" with
             | None => true
             | Some _ => false
             end
         | None => true
         end
      && match alookup "parent" (o_props o) with
         | Some p => JS.prop_configurable p
         | None => true
         end
  | _, _ => false
  end.

(** ** More predicates and sample states *)

(** The keys of a store are strings, each at most once. *)
Definition string_keys (es : list (value * value)) : Prop :=
  Forall (fun kv => exists k, fst kv = VStr k) es.

(** What [entries()] makes of the entries of a store with string keys. *)
Definition fields_of_store (es : list (value * value)) : fields :=
  fold_left
    (fun acc kv =>
       match fst kv with
       | VStr k => aset k (snd kv) acc
       | _ => acc
       end)
    es [].


(** [synthesized] with one more object, the function [num => num + 1],
    at 52, and 41 stored under [calls] in the store of the chain. *)
Definition with_increment : heap :=
  Eval vm_compute in
    heap_of
      ((JS.alloc_fun CIncrement ;;
        ChainedMap.set (invoke demo 0) (VRef 24) (VStr "calls") (VNum 41))
         synthesized).

(** The heap [h] with the own property [p] written under every key of
    [ks] on [t]. *)
Definition mark_all (t : loc) (ks : list string) (p : prop) (h : heap) : heap :=
  fold_left (fun h ka => mark t ka p h) ks h.

(** The accessors of [p], if it has any, are functions or undefined. *)
Definition valid_prop (h : heap) (p : prop) : Prop :=
  match p with
  | PData _ _ _ _ => True
  | PAcc g s _ _ =>
      JS.callable_or_undefined h (Some g) = true
      /\ JS.callable_or_undefined h (Some s) = true
  end.

(** [configured] with a member [x] on [parent]: a method, the function
    at 9, neither writable, enumerable nor configurable. *)
Definition with_x : heap :=
  Eval vm_compute in
    heap_of
      (JS.ObjectDefine (VRef 22) "x"
         (Some (Descriptor (Some (VRef 9)) None None None None None))
         configured).


(** [!handler || handler.defaulted], read off the heap, for a handler
    that is absent or an object whose [defaulted] member, if any, is its
    own data property. *)
Definition defaulted_flag (h : heap) (handler : value) : option bool :=
  if JS.truthy handler then
    match handler with
    | VRef f =>
        match h !! f with
        | Some o =>
            match alookup "defaulted" (o_props o), o_proto o with
            | Some (PData d _ _ _), _ => Some (JS.truthy d)
            | None, None => Some false
            | _, _ => None
            end
        | None => None
        end
    | _ => None
    end
  else Some true.

(** The heap after the first four statements of [_defaults]: the two
    default handlers, allocated and flagged. *)
Definition flagged (parent name_ : value) (h : heap) : heap :=
  mark (S (length h)) "defaulted" (PData (VBool true) true true true)
    (mark (length h) "defaulted" (PData (VBool true) true true true)
       ((h ++ [JS.new_fun (CDefaultOnSet parent name_)])
          ++ [JS.new_fun (CDefaultOnGet parent name_)])).

(** Every object of [h] is in [h'], with the same members and the same
    prototype. *)
Definition agree (h h' : heap) : Prop :=
  forall l o, h !! l = Some o ->
    exists o', h' !! l = Some o' /\ o_props o' = o_props o
               /\ o_proto o' = o_proto o.

(** [configured] with a handler of its own, the function at 9, stored
    as the get handler of the chain. *)
Definition with_getter : heap :=
  Eval vm_compute in
    heap_of (ChainedMap.set (invoke demo 0) (VRef 24) (VStr "get") (VRef 9)
               configured).

(** [existing.value] is something a member can be written on: an
    object, a function or an array. *)
Definition holds_members (v : option value) : bool :=
  match v with
  | Some (VRef _) | Some (VArr _) => true
  | _ => false
  end.

(** [configured] with a configurable member [x] on [parent] that holds a
    number. *)
Definition with_number : heap :=
  Eval vm_compute in
    heap_of (JS.set_prop (invoke demo 0) true (VRef 22) "x" (VNum 1) configured).

(** Reading [k] on [l] gives something falsy, and runs no getter. *)
Definition reads_falsy (h : heap) (l : loc) (k : string) : bool :=
  match JS.find_prop (length h) h l k with
  | None => true
  | Some (PData v _ _ _) => negb (JS.truthy v)
  | Some (PAcc _ _ _ _) => false
  end.

(** ** deps/meta/keymap.js *)

Module Keymap.

Definition keys : list string :=
  ["parent"; "store"; "meta"; "className";
   "observers"; "transformers"; "decorated"; "shorthands";
   "undefined"; "null"; "string"; "number"; "function"; "array"].

Definition KEY_UNDEFINED : Z := 9.

(** [keys[index]], for an index that is a number or left out (the
    default, [Number], is no index of the array). *)
Definition key_at (index : value) : M value :=
  match index with
  | VNum n =>
      if (0 <=? n)%Z
      then ret (match keys !! Z.to_nat n with
                | Some s => VStr s
                | None => VUndef
                end)
      else ret VUndef
  | VUndef | VNaN | VNull | VBool _ => ret VUndef
  | _ => stuck "an index that is a string or an object"
  end.

Section WithCall.
Variable E : env.
Variable call : caller.

(** [access(index = Number, obj = undefined, val = undefined)]; the
    module is sloppy code. *)
Definition access (index obj val : value) : M value :=
  key <- key_at index ;;
  if isUndefined obj then ret key
  else
    k <- JS.key_of E key ;;
    if isUndefined val then JS.get_prop call obj k
    else JS.set_prop call false obj k val ;; ret val.

End WithCall.
End Keymap.

(** The members of an object written as a literal. *)
Definition literal_props (fs : fields) : list (string * prop) :=
  map (fun kv => (fst kv, PData (snd kv) true true true)) fs.

(** The entries [es] after [set(k, v)] for every field of [fs]. *)
Definition stored (fs : fields) (es : list (value * value))
  : list (value * value) :=
  fold_left (fun es kv => mset (VStr (fst kv)) (snd kv) es) fs es.

(** [configured] with the object [{eh: true, x: 1}] at 49. *)
Definition with_literal : heap :=
  Eval vm_compute in
    heap_of (alloc_plain [("eh", VBool true); ("x", VNum 1)] configured).

(** No object on the prototype chain of [l], which ends within [fuel]
    links, has a member [k]. *)
Fixpoint lacks (fuel : nat) (h : heap) (l : loc) (k : string) : bool :=
  match h !! l with
  | None => false
  | Some o =>
      match alookup k (o_props o) with
      | Some _ => false
      | None =>
          match o_proto o, fuel with
          | None, _ => true
          | Some l', S f => lacks f h l' k
          | Some _, O => false
          end
      end
  end.

(** Every object of [h] is in [h'], of the same kind, with the same
    prototype and the same member [k]. *)
Definition agree_on (k : string) (h h' : heap) : Prop :=
  forall l o, h !! l = Some o ->
    exists o', h' !! l = Some o'
               /\ alookup k (o_props o') = alookup k (o_props o)
               /\ o_proto o' = o_proto o /\ o_kind o' = o_kind o.

(** [this.shorthands.push(x)] on the heap. *)
Definition pushed (a : loc) (x : value) (h : heap) : heap :=
  match JS.own_prop h a "shorthands" with
  | Some (PData (VArr l) w e c) =>
      mark a "shorthands" (PData (VArr (l ++ [x])) w e c) h
  | _ => h
  end.

(** One round of [extend]: the name is recorded, the shorthand is
    allocated and becomes the member [m] of the chain. *)
Definition extend_step (a : loc) (h : heap) (m : string) : heap :=
  mark a m (PData (VRef (length h)) true true true)
    (pushed a (VStr m) h ++ [JS.new_fun (CShorthand (VRef a) (VStr m))]).

(** What a round of [extend] needs of the heap, and leaves in place: the
    chain [a] is extensible, keeps its [shorthands] array, and has no
    member under any of the names [ms]. *)
Definition extensible_chain (a : loc) (fuel : nat) (h : heap)
  (l : list value) (w e c : bool) (ms : list string) : Prop :=
  (exists o, h !! a = Some o /\ o_ext o = true)
  /\ JS.own_prop h a "shorthands" = Some (PData (VArr l) w e c)
  /\ (forall m, In m ms -> lacks fuel h a m = true).




(** The member [k] within reach of [p] is the function [c]. *)
Definition method_at (h : heap) (p : loc) (k : string) (c : closure) : Prop :=
  exists t w e cf,
    JS.find_prop (length h) h p k = Some (PData (VRef t) w e cf)
    /\ JS.closure_of h (VRef t) = Some c.

(** [configured] with the two default handlers of [_defaults] for the
    name [eh] of the parent, at 49 and 50. *)
Definition with_handlers : heap :=
  Eval vm_compute in
    heap_of
      ((JS.alloc_fun (CDefaultOnSet (VRef 22) (VStr "eh")) ;;
        JS.alloc_fun (CDefaultOnGet (VRef 22) (VStr "eh")))
         configured).

(** * Properties *)

(** ** Association lists and the monad *)

Lemma alookup_aset_eq {A} (k : string) (a : A) (l : list (string * A)) :
  alookup k (aset k a l) = Some a.
Proof.
  induction l as [|[k' a'] l IH]; simpl.
  - now rewrite String.eqb_refl.
  - destruct (String.eqb k k') eqn:Hk; simpl.
    + now rewrite String.eqb_refl.
    + now rewrite Hk.
Qed.

Lemma alookup_aset_ne {A} (k k0 : string) (a : A) (l : list (string * A)) :
  k <> k0 -> alookup k (aset k0 a l) = alookup k l.
Proof.
  intros Hne. induction l as [|[k' a'] l IH]; simpl.
  - apply String.eqb_neq in Hne. now rewrite Hne.
  - destruct (String.eqb k0 k') eqn:Hk; simpl.
    + apply String.eqb_eq in Hk. subst k'.
      apply String.eqb_neq in Hne. now rewrite Hne.
    + destruct (String.eqb k k'); [reflexivity | exact IH].
Qed.



Lemma bind_ok {A B} (m : M A) (k : A -> M B) (h h1 : heap) (a : A) :
  m h = Ok (a, h1) -> bind m k h = k a h1.
Proof. intros H. unfold bind. now rewrite H. Qed.

Lemma bind_ok_inv {A B} (m : M A) (k : A -> M B) (h : heap) (r : B * heap) :
  bind m k h = Ok r -> exists a h1, m h = Ok (a, h1) /\ k a h1 = Ok r.
Proof.
  unfold bind. destruct (m h) as [[a h1]| |]; intros H; try discriminate.
  now exists a, h1.
Qed.

(** ** clean *)






(** ** Steps of the primitive operations *)

Lemma key_of_ok (E : env) (v : value) (k : string) (h : heap) :
  JS.to_key E h v = Some k -> JS.key_of E v h = Ok (k, h).
Proof. intros H. unfold JS.key_of. now rewrite H. Qed.

Lemma hasOwnProperty_ok (l : loc) (k : string) (h : heap) :
  JS.hasOwnProperty (VRef l) k h =
  Ok (match JS.own_prop h l k with Some _ => true | None => false end, h).
Proof. reflexivity. Qed.

Lemma getDescriptor_ok (l : loc) (k : string) (h : heap) :
  JS.getDescriptor (VRef l) k h =
  Ok (option_map JS.descriptor_of (JS.own_prop h l k), h).
Proof. reflexivity. Qed.

(** [step H] runs the first action of the goal with the equation [H]. *)
Ltac step H := erewrite bind_ok; [| exact H].

(** ** The conflict with an existing property *)

Lemma descriptor_of_configurable (p : prop) :
  d_configurable (JS.descriptor_of p) = Some (JS.prop_configurable p).
Proof. now destruct p. Qed.



(** ** The descriptor that is installed *)


Ltac invert_bind H :=
  let a := fresh "a" in
  let h1 := fresh "h" in
  let H1 := fresh "Hrun" in
  apply bind_ok_inv in H as (a & h1 & H1 & H).


(** Whatever was merged: when it has a truthy value and a truthy getter,
    the two [delete]s keep the accessors and drop the value and the
    [writable] attribute. *)
Lemma _build_resolve_prefers_accessors (merged : descriptor) :
  JS.truthy (JS.or_default (d_value merged) VUndef) = true ->
  JS.truthy (JS.or_default (d_get merged) VUndef) = true ->
  let d := MethodChain._build_resolve merged in
  d_value d = None /\ d_writable d = None
  /\ d_get d = d_get merged /\ d_set d = d_set merged.
Proof.
  intros Hv Hg. unfold MethodChain._build_resolve. rewrite Hv, Hg. simpl.
  destruct (d_writable merged); repeat split; reflexivity.
Qed.


(** ** Chains and their store *)

Lemma value_eqb_eq (a b : value) : JS.value_eqb a b = true -> a = b.
Proof.
  destruct a, b; simpl; try discriminate; intros H; try reflexivity.
  - apply Bool.eqb_prop in H. now subst.
  - apply Z.eqb_eq in H. now subst.
  - apply String.eqb_eq in H. now subst.
  - apply Nat.eqb_eq in H. now subst.
Qed.

Lemma value_eqb_refl (a : value) :
  JS.is_array a = false -> JS.value_eqb a a = true.
Proof.
  destruct a; simpl; try discriminate; intros _; try reflexivity.
  - apply Bool.eqb_reflx.
  - apply Z.eqb_refl.
  - apply String.eqb_refl.
  - apply Nat.eqb_refl.
Qed.

Lemma mlookup_mset_eq (k v : value) (es : list (value * value)) :
  JS.is_array k = false -> mlookup k (mset k v es) = Some v.
Proof.
  intros Hk. induction es as [|[k' v'] es IH]; simpl.
  - now rewrite value_eqb_refl.
  - destruct (JS.value_eqb k k') eqn:Hkk; simpl; now rewrite Hkk.
Qed.

Lemma mlookup_mset_ne (k k0 v : value) (es : list (value * value)) :
  k <> k0 -> mlookup k (mset k0 v es) = mlookup k es.
Proof.
  intros Hne. induction es as [|[k' v'] es IH]; simpl.
  - destruct (JS.value_eqb k k0) eqn:Hk; [|reflexivity].
    apply value_eqb_eq in Hk. contradiction.
  - destruct (JS.value_eqb k0 k') eqn:Hk0; simpl.
    + apply value_eqb_eq in Hk0. subst k'.
      destruct (JS.value_eqb k k0) eqn:Hk; [|reflexivity].
      apply value_eqb_eq in Hk. contradiction.
    + destruct (JS.value_eqb k k'); [reflexivity | exact IH].
Qed.

Lemma find_prop_own (d : nat) (h : heap) (l : loc) (k : string) (p : prop) :
  JS.own_prop h l k = Some p -> JS.find_prop d h l k = Some p.
Proof.
  unfold JS.own_prop. intros H. destruct d; simpl;
    destruct (h !! l) as [o|]; try discriminate; now rewrite H.
Qed.

Lemma get_prop_own_data (call : caller) (h : heap) (l : loc) (k : string)
  (v : value) (w e c : bool) :
  JS.own_prop h l k = Some (PData v w e c) ->
  JS.get_prop call (VRef l) k h = Ok (v, h).
Proof.
  intros H. unfold JS.get_prop, bind, get_heap.
  now rewrite (find_prop_own _ _ _ _ _ H).
Qed.

Lemma put_map_length (s : loc) (es : list (value * value)) (h : heap) :
  length (put_map s es h) = length h.
Proof.
  unfold put_map. destruct (h !! s); [apply length_insert | reflexivity].
Qed.

Lemma put_map_lookup (s l : loc) (es : list (value * value)) (h : heap) :
  put_map s es h !! l =
  match h !! l with
  | Some o => Some (if Nat.eqb l s then JS.set_kind (KMap es) o else o)
  | None => None
  end.
Proof.
  unfold put_map. destruct (h !! s) as [os|] eqn:Hs.
  - destruct (Nat.eqb l s) eqn:Hls.
    + apply Nat.eqb_eq in Hls. subst l. rewrite Hs.
      apply list_lookup_insert_eq. now apply lookup_lt_Some in Hs.
    + apply Nat.eqb_neq in Hls. rewrite list_lookup_insert_ne by congruence.
      now destruct (h !! l).
  - destruct (h !! l) as [o|] eqn:Hl; [|reflexivity].
    destruct (Nat.eqb l s) eqn:Hls; [|reflexivity].
    apply Nat.eqb_eq in Hls. subst l. congruence.
Qed.

Lemma put_map_own_prop (s l : loc) (es : list (value * value)) (h : heap)
  (k : string) :
  JS.own_prop (put_map s es h) l k = JS.own_prop h l k.
Proof.
  unfold JS.own_prop. rewrite put_map_lookup.
  destruct (h !! l) as [o|]; [|reflexivity].
  now destruct (Nat.eqb l s).
Qed.

Lemma put_map_map_at (s : loc) (es es' : list (value * value)) (h : heap) :
  map_at h s es -> map_at (put_map s es' h) s es'.
Proof.
  intros (o & Ho & _). exists (JS.set_kind (KMap es') o).
  rewrite put_map_lookup, Ho, Nat.eqb_refl. now split.
Qed.

Lemma put_map_closure_of (s : loc) (es es' : list (value * value)) (h : heap)
  (v : value) :
  map_at h s es -> JS.closure_of (put_map s es' h) v = JS.closure_of h v.
Proof.
  intros (o & Ho & Hk). destruct v; try reflexivity. simpl.
  rewrite put_map_lookup. destruct (h !! l) as [ol|] eqn:Hl; [|reflexivity].
  destruct (Nat.eqb l s) eqn:Hls; [|reflexivity].
  apply Nat.eqb_eq in Hls. subst l. rewrite Ho in Hl. injection Hl as <-.
  destruct o as [pr ex ps kd]. simpl in *. now subst kd.
Qed.

Lemma map_set_ok (s : loc) (k v : value) (es : list (value * value))
  (h : heap) :
  map_at h s es -> JS.is_array k = false ->
  map_set (VRef s) k v h = Ok (tt, put_map s (mset k v es) h).
Proof.
  intros (o & Ho & Hk) Hkey.
  unfold map_set, with_map, bind, get_heap. rewrite Ho, Hk, Hkey.
  unfold JS.update, put_map. now rewrite Ho.
Qed.

Lemma map_get_ok (s : loc) (k : value) (es : list (value * value))
  (h : heap) :
  map_at h s es -> JS.is_array k = false ->
  map_get (VRef s) k h = Ok (JS.or_default (mlookup k es) VUndef, h).
Proof.
  intros (o & Ho & Hk) Hkey.
  unfold map_get, with_map, bind, get_heap. now rewrite Ho, Hk, Hkey.
Qed.

Lemma ChainedMap_set_ok (call : caller) (a s : loc) (k v : value)
  (es : list (value * value)) (h : heap) :
  store_at h a s -> map_at h s es -> JS.is_array k = false ->
  ChainedMap.set call (VRef a) k v h
  = Ok (VRef a, put_map s (mset k v es) h).
Proof.
  intros (w & e & c & Hst) Hmap Hkey. unfold ChainedMap.set.
  step (get_prop_own_data call _ _ _ _ _ _ _ Hst).
  step (map_set_ok _ _ v _ _ Hmap Hkey). reflexivity.
Qed.

Lemma ChainedMap_get_ok (call : caller) (a s : loc) (k : value)
  (es : list (value * value)) (h : heap) :
  store_at h a s -> map_at h s es -> JS.is_array k = false ->
  ChainedMap.get call (VRef a) k h
  = Ok (JS.or_default (mlookup k es) VUndef, h).
Proof.
  intros (w & e & c & Hst) Hmap Hkey. unfold ChainedMap.get.
  step (get_prop_own_data call _ _ _ _ _ _ _ Hst).
  now apply map_get_ok.
Qed.

Lemma put_map_store_at (s a s' : loc) (es : list (value * value)) (h : heap) :
  store_at h a s' -> store_at (put_map s es h) a s'.
Proof.
  intros (w & e & c & H). exists w, e, c. now rewrite put_map_own_prop.
Qed.

(** ** encase *)

(** C8.  [encase(x)] stores, under [encase], the value of [parent[x]]
    when it is truthy, else [x] itself when it is truthy, else [true];
    [v] is what [parent[x]] evaluates to. *)
Theorem encase_stores_resolved (E : env) (call : caller) (a s : loc)
  (parent x v : value) (k : string) (es : list (value * value))
  (h h1 : heap) :
  JS.to_key E h x = Some k ->
  JS.get_prop call parent k h = Ok (v, h1) ->
  store_at h1 a s -> map_at h1 s es ->
  let stored :=
    if JS.truthy v then v else if JS.truthy x then x else VBool true in
  exists h2,
    MethodChain.encase E call (VRef a) parent x h = Ok (VRef a, h2)
    /\ ChainedMap.get call (VRef a) (VStr "encase") h2 = Ok (stored, h2).
Proof.
  intros Hk Hget Hst Hmap stored.
  exists (put_map s (mset (VStr "encase") stored es) h1). split.
  - unfold MethodChain.encase.
    step (key_of_ok E _ _ h Hk). step Hget.
    replace (JS.or (JS.or v x) (VBool true)) with stored.
    + now apply ChainedMap_set_ok.
    + subst stored. unfold JS.or.
      destruct (JS.truthy v) eqn:Hv; [now rewrite Hv|].
      destruct (JS.truthy x); reflexivity.
  - rewrite (ChainedMap_get_ok call a s (VStr "encase")
               (mset (VStr "encase") stored es)).
    + now rewrite mlookup_mset_eq.
    + now apply put_map_store_at.
    + eapply put_map_map_at. exact Hmap.
    + reflexivity.
Qed.

(** ** Reuse of an inherited value *)

Lemma mark_length (m : loc) (k0 : string) (p : prop) (h : heap) :
  length (mark m k0 p h) = length h.
Proof.
  unfold mark. destruct (h !! m); [apply length_insert | reflexivity].
Qed.

Lemma mark_lookup (m l : loc) (k0 : string) (p : prop) (h : heap) :
  mark m k0 p h !! l =
  match h !! l with
  | Some o =>
      Some (if Nat.eqb l m then JS.set_props (aset k0 p (o_props o)) o else o)
  | None => None
  end.
Proof.
  unfold mark. destruct (h !! m) as [om|] eqn:Hm.
  - destruct (Nat.eqb l m) eqn:Hlm.
    + apply Nat.eqb_eq in Hlm. subst l. rewrite Hm.
      apply list_lookup_insert_eq. now apply lookup_lt_Some in Hm.
    + apply Nat.eqb_neq in Hlm. rewrite list_lookup_insert_ne by congruence.
      now destruct (h !! l).
  - destruct (h !! l) as [o|] eqn:Hl; [|reflexivity].
    destruct (Nat.eqb l m) eqn:Hlm; [|reflexivity].
    apply Nat.eqb_eq in Hlm. subst l. congruence.
Qed.

Lemma mark_own_prop_ne (m l : loc) (k0 k : string) (p : prop) (h : heap) :
  k <> k0 -> JS.own_prop (mark m k0 p h) l k = JS.own_prop h l k.
Proof.
  intros Hne. unfold JS.own_prop. rewrite mark_lookup.
  destruct (h !! l) as [o|]; [|reflexivity].
  destruct (Nat.eqb l m); [|reflexivity].
  simpl. now apply alookup_aset_ne.
Qed.

Lemma mark_own_prop_eq (m : loc) (k0 : string) (p : prop) (h : heap) (o : obj) :
  h !! m = Some o -> JS.own_prop (mark m k0 p h) m k0 = Some p.
Proof.
  intros Hm. unfold JS.own_prop. rewrite mark_lookup, Hm, Nat.eqb_refl.
  simpl. apply alookup_aset_eq.
Qed.

Lemma mark_closure_of (m : loc) (k0 : string) (p : prop) (h : heap) (v : value) :
  JS.closure_of (mark m k0 p h) v = JS.closure_of h v.
Proof.
  destruct v; try reflexivity. simpl. rewrite mark_lookup.
  destruct (h !! l) as [[pr ex ps kd]|]; [|reflexivity].
  now destruct (Nat.eqb l m).
Qed.

Lemma mark_map_at (m s : loc) (k0 : string) (p : prop) (h : heap)
  (es : list (value * value)) :
  map_at h s es -> map_at (mark m k0 p h) s es.
Proof.
  intros (o & Ho & Hk). unfold map_at. rewrite mark_lookup, Ho.
  eexists. split; [reflexivity|]. now destruct (Nat.eqb s m).
Qed.



Lemma put_map_own_method (s a : loc) (k : string) (es es' : list (value * value))
  (h : heap) (c : closure) :
  map_at h s es -> own_method h a k c -> own_method (put_map s es' h) a k c.
Proof.
  intros Hmap (f & w & e & cf & Hp & Hc). exists f, w, e, cf. split.
  - now rewrite put_map_own_prop.
  - now rewrite (put_map_closure_of _ _ _ _ _ Hmap).
Qed.

Lemma set_prop_accepts (call : caller) (strict : bool) (m : loc) (k0 : string)
  (v : value) (p : prop) (h : heap) :
  accepts h m k0 v p ->
  JS.set_prop call strict (VRef m) k0 v h = Ok (tt, mark m k0 p h).
Proof.
  intros (o & Hm & [(Hfind & Hext & ->) | (v0 & e & c & Hown & ->)]).
  - unfold JS.set_prop, bind, get_heap. rewrite Hm, Hfind, Hext.
    unfold JS.update, mark. now rewrite Hm.
  - assert (Hfind : JS.find_prop (length h) h m k0 = Some (PData v0 true e c)).
    { apply find_prop_own. unfold JS.own_prop. now rewrite Hm. }
    unfold JS.set_prop, bind, get_heap. rewrite Hm, Hfind, Hown.
    unfold JS.update, mark. now rewrite Hm.
Qed.

Lemma accepts_value (h : heap) (m : loc) (k0 : string) (v : value) (p : prop) :
  accepts h m k0 v p -> exists e c, p = PData v true e c.
Proof.
  intros (o & _ & [(_ & _ & ->) | (v0 & e & c & _ & ->)]); eauto.
Qed.

(** A call of a function that the receiver owns. *)
Lemma call_method_own (E : env) (n : nat) (a : loc) (k : string)
  (c : closure) (args : list value) (h : heap) :
  own_method h a k c ->
  JS.call_method (invoke E (S n)) (VRef a) k args h
  = run E (invoke E n) c (VRef a) args h.
Proof.
  intros (f & w & e & cf & Hp & Hc). unfold JS.call_method.
  step (get_prop_own_data (invoke E (S n)) _ _ _ _ _ _ _ Hp).
  unfold bind, get_heap, JS.is_callable. cbv beta iota. rewrite Hc.
  cbn [invoke]. now rewrite Hc.
Qed.

Lemma get_prop_found_data (call : caller) (h : heap) (l : loc) (k : string)
  (v : value) (w e c : bool) :
  JS.find_prop (length h) h l k = Some (PData v w e c) ->
  JS.get_prop call (VRef l) k h = Ok (v, h).
Proof.
  intros H. unfold JS.get_prop, bind, get_heap. now rewrite H.
Qed.

Lemma put_map_put_map (s : loc) (es1 es2 : list (value * value)) (h : heap) :
  put_map s es2 (put_map s es1 h) = put_map s es2 h.
Proof.
  unfold put_map at 1 3. rewrite put_map_lookup.
  destruct (h !! s) as [o|] eqn:Hs.
  - rewrite Nat.eqb_refl. unfold put_map. rewrite Hs.
    rewrite list_insert_insert_eq. reflexivity.
  - unfold put_map. now rewrite Hs.
Qed.



(** ** returns *)

Lemma field_aset_eq (k : string) (v : value) (fs : fields) :
  field k (aset k v fs) = v.
Proof. unfold field. now rewrite alookup_aset_eq. Qed.

Lemma field_aset_ne (k k0 : string) (v : value) (fs : fields) :
  k <> k0 -> field k (aset k0 v fs) = field k fs.
Proof. intros H. unfold field. now rewrite alookup_aset_ne. Qed.

Lemma alloc_fun_ok (c : closure) (h : heap) :
  JS.alloc_fun c h = Ok (VRef (length h), h ++ [JS.new_fun c]).
Proof. reflexivity. Qed.

Lemma closure_of_alloc (c : closure) (h : heap) :
  JS.closure_of (h ++ [JS.new_fun c]) (VRef (length h)) = Some c.
Proof.
  simpl. rewrite lookup_app_r by lia. now rewrite Nat.sub_diag.
Qed.



(** ** One-shot consumption *)

Lemma for_each_noop {A} (f : A -> M unit) (l : list A) (h : heap) :
  (forall x, In x l -> f x h = Ok (tt, h)) -> for_each f l h = Ok (tt, h).
Proof.
  induction l as [|x l IH]; intros H; simpl; [reflexivity|].
  step (H x (or_introl eq_refl)). apply IH. intros y Hy. apply H. now right.
Qed.

Lemma alookup_in_keys {A} (k : string) (l : list (string * A)) :
  In k (map fst l) -> exists p, alookup k l = Some p /\ In (k, p) l.
Proof.
  induction l as [|[k' p'] l IH]; simpl; [contradiction|].
  intros [Hk | Hin].
  - subst k'. rewrite String.eqb_refl. exists p'. split; [reflexivity | now left].
  - destruct (String.eqb k k') eqn:Hkk.
    + apply String.eqb_eq in Hkk. subst k'. exists p'.
      split; [reflexivity | now left].
    + destruct (IH Hin) as (p & Hp & Hp'). exists p. split; [exact Hp | now right].
Qed.

Lemma own_keys_in (o : obj) (k : string) :
  In k (JS.own_keys o) -> In k (map fst (o_props o)).
Proof.
  unfold JS.own_keys. rewrite !in_map_iff.
  intros (kp & Hk & Hin). exists kp. split; [exact Hk|].
  apply filter_In in Hin. tauto.
Qed.

Lemma shrinks_proto_chain (a : loc) (k : string) (h h' : heap) (c : loc) :
  shrinks a k h h' ->
  forall d l, JS.proto_chain_has d h' l c = JS.proto_chain_has d h l c.
Proof.
  intros [_ Hs] d. induction d as [|d IH]; intros l; simpl;
    specialize (Hs l);
    destruct (h !! l) as [o|], (h' !! l) as [o'|]; try contradiction;
    try reflexivity;
    destruct Hs as (Hp & _); rewrite Hp; destruct (o_proto o); try reflexivity.
  now rewrite IH.
Qed.

Lemma shrinks_instance_of (a : loc) (k : string) (h h' : heap) (v : value)
  (c : loc) :
  shrinks a k h h' -> JS.instance_of h' v c = JS.instance_of h v c.
Proof.
  intros Hs. destruct v; try reflexivity. simpl.
  destruct Hs as [Hlen Hs]. rewrite Hlen.
  now apply (shrinks_proto_chain a k h h' c (conj Hlen Hs)).
Qed.

Lemma shrinks_is_map (a : loc) (k : string) (h h' : heap) (v : value) :
  shrinks a k h h' -> JS.is_map h' v = JS.is_map h v.
Proof.
  intros [_ Hs]. destruct v; try reflexivity. simpl. specialize (Hs l).
  destruct (h !! l) as [[pr ex ps kd]|], (h' !! l) as [[pr' ex' ps' kd']|];
    try contradiction; try reflexivity.
  simpl in Hs. destruct Hs as (_ & _ & Hk & _).
  destruct kd, kd'; try reflexivity; discriminate.
Qed.

Lemma shrinks_own_prop (a : loc) (k k' : string) (h h' : heap) (l : loc) :
  shrinks a k h h' -> (l = a -> k' <> k) ->
  JS.own_prop h' l k' = JS.own_prop h l k'.
Proof.
  intros [_ Hs] Hne. unfold JS.own_prop. specialize (Hs l).
  destruct (h !! l) as [o|], (h' !! l) as [o'|]; try contradiction;
    try reflexivity.
  destruct Hs as (_ & _ & _ & Hp & _). now apply Hp.
Qed.

Lemma shrinks_find_none (a : loc) (k : string) (h h' : heap) :
  shrinks a k h h' ->
  forall d l, JS.find_prop d h l k = None -> JS.find_prop d h' l k = None.
Proof.
  intros [_ Hs] d. induction d as [|d IH]; intros l; simpl;
    pose proof (Hs l) as Hl;
    destruct (h !! l) as [o|], (h' !! l) as [o'|]; try contradiction;
    try reflexivity;
    destruct Hl as (Hp & _ & _ & Hne & Heq);
    destruct (alookup k (o_props o)) eqn:Ho; try discriminate;
    (assert (Ho' : alookup k (o_props o') = None);
     [ destruct (Nat.eq_dec l a) as [Hla|Hla];
       [ destruct (Heq Hla) as [H|H]; [exact H | now rewrite H]
       | rewrite Hne; [exact Ho | intros; contradiction] ]
     | rewrite Ho' ]);
    try reflexivity.
  rewrite Hp. destruct (o_proto o); [apply IH | reflexivity].
Qed.


Lemma put_map_shrinks (a s : loc) (k : string) (es es' : list (value * value))
  (h : heap) :
  map_at h s es -> shrinks a k h (put_map s es' h).
Proof.
  intros (os & Hos & Hk). split; [apply put_map_length|]. intros l.
  rewrite put_map_lookup. destruct (h !! l) as [o|] eqn:Hl; [|exact I].
  destruct (Nat.eqb l s) eqn:Hls.
  - apply Nat.eqb_eq in Hls. subst l. rewrite Hos in Hl. injection Hl as <-.
    simpl. rewrite Hk.
    split; [reflexivity|]. split; [reflexivity|]. split; [exact I|].
    split; [reflexivity | intros _; now right].
  - split; [reflexivity|]. split; [reflexivity|].
    split; [now destruct (o_kind o)|].
    split; [reflexivity | intros _; now right].
Qed.





Lemma put_map_same (s : loc) (es : list (value * value)) (h : heap) :
  map_at h s es -> put_map s es h = h.
Proof.
  intros (o & Ho & Hk). unfold put_map. rewrite Ho.
  destruct o as [pr ex ps kd]. simpl in *. subst kd. now apply list_insert_id.
Qed.

Lemma plain_member_shrinks (a : loc) (k : string) (h h' : heap)
  (kp : string * prop) :
  shrinks a k h h' -> plain_member h kp -> plain_member h' kp.
Proof.
  intros Hs Hp Hign. destruct (Hp Hign) as (v & w & e & c & Hv & Hi & Hm).
  exists v, w, e, c. split; [exact Hv|]. split.
  - now rewrite (shrinks_instance_of a k h h').
  - now rewrite (shrinks_is_map a k h h').
Qed.

Lemma consumable_shrinks (a s : loc) (es es' : list (value * value))
  (h h' : heap) :
  shrinks a "parent" h h' -> consumable h a s es -> map_at h' s es' ->
  consumable h' a s es'.
Proof.
  intros Hs [Hst Hmap (o & Ho & Hmem & Hpar) Hdel] Hmap'.
  constructor.
  - destruct Hst as (w & e & c & H). exists w, e, c.
    rewrite (shrinks_own_prop a "parent" "store" h h'); [exact H | exact Hs |].
    intros _. discriminate.
  - exact Hmap'.
  - pose proof Hs as [Hlen Hall]. specialize (Hall a). rewrite Ho in Hall.
    destruct (h' !! a) as [o'|] eqn:Ho'; [|contradiction].
    destruct Hall as (Hp & _ & _ & Hne & Heq).
    exists o'. split; [reflexivity|]. split.
    + intros k p Hk. destruct (String.eqb k "parent") eqn:Hkp.
      * apply String.eqb_eq in Hkp. subst k. intros Hign. discriminate.
      * apply (plain_member_shrinks a "parent" h h'); [exact Hs|].
        apply Hmem. rewrite <- Hne; [exact Hk|].
        intros _ ->. discriminate.
    + intros p Hpo. rewrite Hlen.
      apply (shrinks_find_none a "parent" h h' Hs). apply Hpar. congruence.
  - unfold JS.own_prop in *. pose proof Hs as [_ Hall]. specialize (Hall a).
    destruct (h !! a) as [o0|], (h' !! a) as [o'|]; try contradiction; try exact I.
    destruct Hall as (_ & _ & _ & _ & Heq).
    destruct (Heq eq_refl) as [H|H]; rewrite H; [exact I | exact Hdel].
Qed.

Lemma map_clear_ok (s : loc) (es : list (value * value)) (h : heap) :
  map_at h s es -> map_clear (VRef s) h = Ok (tt, put_map s [] h).
Proof.
  intros (o & Ho & Hk).
  unfold map_clear, with_map, bind, get_heap. rewrite Ho, Hk.
  unfold JS.update, put_map. now rewrite Ho.
Qed.

(** [clear()] on an accumulator empties the store and nothing else. *)
Lemma clear_ok (call : caller) (a s : loc) (es : list (value * value))
  (h : heap) :
  consumable h a s es ->
  ChainedMap.clear call (VRef a) h = Ok (VRef a, put_map s [] h).
Proof.
  intros Hc. pose proof Hc as [Hst Hmap _ _].
  assert (Hs : shrinks a "parent" h (put_map s [] h))
    by (eapply put_map_shrinks; exact Hmap).
  assert (Hc' : consumable (put_map s [] h) a s []).
  { eapply consumable_shrinks; [exact Hs | exact Hc |].
    eapply put_map_map_at. exact Hmap. }
  destruct Hc' as [_ _ (o & Ho & Hmem & _) _].
  destruct Hst as (w & e & c & Hstore).
  unfold ChainedMap.clear.
  step (get_prop_own_data call _ _ _ _ _ _ _ Hstore).
  step (map_clear_ok _ _ _ Hmap).
  unfold ObjectKeys. unfold bind at 1. unfold bind at 1.
  unfold get_heap at 1. rewrite Ho. unfold ret at 1.
  erewrite bind_ok; [reflexivity|].
  apply for_each_noop. intros key Hkey.
  destruct (ChainedMap.ignored key) eqn:Hign; [reflexivity|].
  apply own_keys_in, alookup_in_keys in Hkey as (p & Hp & _).
  destruct (Hmem key p Hp Hign) as (v & w' & e' & c' & Hv & Hi & Hm).
  simpl in Hv. subst p.
  assert (Hown : JS.own_prop (put_map s [] h) a key = Some (PData v w' e' c')).
  { unfold JS.own_prop. now rewrite Ho. }
  step (get_prop_own_data call _ _ _ _ _ _ _ Hown).
  unfold bind at 1. unfold get_heap at 1. rewrite Hi.
  unfold bind at 1. unfold ret at 1.
  step (get_prop_own_data call _ _ _ _ _ _ _ Hown).
  unfold bind at 1. unfold get_heap at 1. now rewrite Hm.
Qed.




(** ** Runs from the initial heap *)

(** C5.  With no handler configured, after [name('eh').build()] the call
    [parent.eh(v)] writes [v] into the store of the parent under [eh]:
    reading the store under [eh] gives [v] (5 for [parent.eh(5)]). *)
Theorem default_wiring_writes_store (E : env) (v : value) :
  result_of (default_wiring E 4 v initial_heap) = Ok v.
Proof.
  destruct E as [[|] dk sk cc mt vmf mef hst]; destruct v; vm_compute; reflexivity.
Qed.

(** The installed method of [returns(R, true)], run: [parent.eh(5)] is
    what [R] makes of the result of the default method, which is
    [parent], followed by the argument. *)
Lemma returning_call_runs (dev : bool) (r : value) :
  result_of (returning_call (sample_env dev r) 5 initial_heap)
  = Ok (VArr [VRef 22; VNum 5]).
Proof. destruct dev; vm_compute; reflexivity. Qed.

(** C6.  After [name('count').autoIncrement().build()] the store of the
    parent holds 0 under [count] before any call, 1 after one call of
    [parent.count()] and 2 after two. *)
Theorem autoIncrement_counts_calls (E : env) :
  result_of (counting E 6 0 initial_heap) = Ok (VNum 0)
  /\ result_of (counting E 6 1 initial_heap) = Ok (VNum 1)
  /\ result_of (counting E 6 2 initial_heap) = Ok (VNum 2).
Proof.
  destruct E as [[|] dk sk cc mt vmf mef hst]; repeat split; vm_compute; reflexivity.
Qed.

(** C1, as the code runs it.  Whatever the handler returns on its own
    ([r]; 7, which is truthy, in the example), the method installed
    through [decorate(target)] returns [target], the object at 24. *)
Theorem decorate_returns_target_only (dev : bool) (r : value) :
  result_of (decorated_call (sample_env dev r) 5 initial_heap)
  = Ok [VRef 24; r; VRef 24]
  /\ result_of (decorated_call (sample_env dev (VNum 7)) 5 initial_heap)
     = Ok [VRef 24; VNum 7; VRef 24].
Proof. split; destruct dev; vm_compute; reflexivity. Qed.

(** ** The theorems at concrete inputs *)

Lemma alookup_In {A} (k : string) (p : A) (l : list (string * A)) :
  alookup k l = Some p -> In (k, p) l.
Proof.
  induction l as [|[k' p'] l IH]; simpl; [discriminate|].
  destruct (String.eqb k k') eqn:Hk.
  - apply String.eqb_eq in Hk. subst k'. intros [= ->]. now left.
  - intros H. right. now apply IH.
Qed.

Lemma consumableb_sound (h : heap) (a s : loc) :
  consumableb h a s = true -> consumable h a s (entries_at h s).
Proof.
  unfold consumableb.
  destruct (h !! a) as [o|] eqn:Ho; [|discriminate].
  destruct (h !! s) as [os|] eqn:Hos; [|discriminate].
  rewrite !andb_true_iff. intros ((((Hst & Hk) & Hmem) & Hpar) & Hdel).
  constructor.
  - destruct (alookup "store" (o_props o)) as [[[| | | | | | |s'] w e c|]|] eqn:Hs;
      try discriminate.
    apply Nat.eqb_eq in Hst. subst s'. exists w, e, c.
    unfold JS.own_prop. rewrite Ho. exact Hs.
  - exists os. split; [exact Hos|]. unfold entries_at. rewrite Hos.
    now destruct (o_kind os).
  - exists o. split; [exact Ho|]. split.
    + intros k p Hkp Hign. apply alookup_In in Hkp.
      rewrite forallb_forall in Hmem. specialize (Hmem _ Hkp).
      unfold plain_memberb in Hmem. simpl in *. rewrite Hign in Hmem.
      simpl in Hmem. destruct p as [v w e c|]; [|discriminate].
      apply andb_true_iff in Hmem as [Hi Hm].
      exists v, w, e, c. repeat split.
      * now apply negb_true_iff.
      * now apply negb_true_iff.
    + intros p Hp. rewrite Hp in Hpar.
      now destruct (JS.find_prop (length h) h p "parent").
  - unfold JS.own_prop. rewrite Ho.
    now destruct (alookup "parent" (o_props o)).
Qed.



Lemma encase_stores_resolved_witness :
  exists h2,
    MethodChain.encase demo (invoke demo 3) (VRef 24) (VRef 22)
      (VStr "get") configured = Ok (VRef 24, h2)
    /\ ChainedMap.get (invoke demo 3) (VRef 24) (VStr "encase") h2
       = Ok (VRef 9, h2).
Proof.
  apply (encase_stores_resolved demo (invoke demo 3) 24 25
           (VRef 22) (VStr "get") (VRef 9) "get" (entries_at configured 25)
           configured configured).
  - reflexivity.
  - vm_compute. reflexivity.
  - exists true, true, true. vm_compute. reflexivity.
  - eexists. split; vm_compute; reflexivity.
Defined.

(** [encase(f)] for a function [f] (here the one at 9) whose text is not
    a member of the parent: [f] itself is stored. *)
Lemma encase_of_a_function :
  result_of
    ((MethodChain.encase demo (invoke demo 3) (VRef 24) (VRef 22) (VRef 9) ;;
      ChainedMap.get (invoke demo 3) (VRef 24) (VStr "encase")) configured)
  = Ok (VRef 9).
Proof. vm_compute. reflexivity. Qed.



(** * Further properties *)

(** ** The store: set, get, entries, clear *)


(** X1.  [set(key, value)] returns the chain; a [get] of the key then
    gives the value, and every other key reads as it did before. *)
Theorem set_then_get (call : caller) (a s : loc) (k v : value)
  (es : list (value * value)) (h : heap) :
  store_at h a s -> map_at h s es -> JS.is_array k = false ->
  exists h',
    ChainedMap.set call (VRef a) k v h = Ok (VRef a, h')
    /\ ChainedMap.get call (VRef a) k h' = Ok (v, h')
    /\ forall k' x,
         JS.is_array k' = false -> k' <> k ->
         ChainedMap.get call (VRef a) k' h = Ok (x, h) ->
         ChainedMap.get call (VRef a) k' h' = Ok (x, h').
Proof.
  intros Hst Hmap Hk. exists (put_map s (mset k v es) h).
  assert (Hst' : store_at (put_map s (mset k v es) h) a s)
    by now apply put_map_store_at.
  assert (Hmap' : map_at (put_map s (mset k v es) h) s (mset k v es))
    by (eapply put_map_map_at; exact Hmap).
  split; [now apply ChainedMap_set_ok|]. split.
  - rewrite (ChainedMap_get_ok call a s k (mset k v es)); auto.
    now rewrite mlookup_mset_eq.
  - intros k' x Hk' Hne Hget.
    rewrite (ChainedMap_get_ok call a s k' es h Hst Hmap Hk') in Hget.
    injection Hget as <-.
    rewrite (ChainedMap_get_ok call a s k' (mset k v es)); auto.
    now rewrite mlookup_mset_ne.
Qed.

Lemma set_then_get_witness :
  exists h',
    ChainedMap.set (invoke demo 0) (VRef 24) (VStr "type") (VNum 1) configured
      = Ok (VRef 24, h')
    /\ ChainedMap.get (invoke demo 0) (VRef 24) (VStr "type") h'
       = Ok (VNum 1, h')
    /\ forall k' x,
         JS.is_array k' = false -> k' <> VStr "type" ->
         ChainedMap.get (invoke demo 0) (VRef 24) k' configured
           = Ok (x, configured) ->
         ChainedMap.get (invoke demo 0) (VRef 24) k' h' = Ok (x, h').
Proof.
  apply (set_then_get (invoke demo 0) 24 25 (VStr "type") (VNum 1)
           (entries_at configured 25) configured).
  - exists true, true, true. vm_compute. reflexivity.
  - eexists. split; vm_compute; reflexivity.
  - reflexivity.
Defined.

Lemma entries_fold (E : env) (h : heap) (es : list (value * value)) :
  string_keys es ->
  forall (m : M fields) (acc : fields),
    m h = Ok (acc, h) ->
    fold_left
      (fun acc kv =>
         a <- acc ;; k <- JS.key_of E (fst kv) ;; ret (aset k (snd kv) a))
      es m h
    = Ok (fold_left
            (fun acc kv =>
               match fst kv with
               | VStr k => aset k (snd kv) acc
               | _ => acc
               end)
            es acc, h).
Proof.
  induction 1 as [|[k v] es [ks Hks] Hes IH]; intros m acc Hm; simpl.
  - exact Hm.
  - simpl in Hks. subst k. apply IH.
    unfold bind. rewrite Hm. reflexivity.
Qed.

Lemma entries_ok (E : env) (call : caller) (a s : loc)
  (es : list (value * value)) (h : heap) :
  store_at h a s -> map_at h s es -> string_keys es ->
  ChainedMap.entries E call (VRef a) VUndef h = Ok (fields_of_store es, h).
Proof.
  intros (w & e & c & Hst) (o & Ho & Hk) Hkeys. unfold ChainedMap.entries.
  step (get_prop_own_data call _ _ _ _ _ _ _ Hst).
  assert (Hes : map_entries (VRef s) h = Ok (es, h)).
  { unfold map_entries, with_map, bind, get_heap. now rewrite Ho, Hk. }
  step Hes.
  erewrite bind_ok; [reflexivity|].
  now apply entries_fold.
Qed.




(** X3.  [clear()] on a chain whose members other than the store are
    plain empties the store and changes no other object: afterwards every
    key reads undefined and [entries()] is empty. *)
Theorem clear_empties_store (E : env) (call : caller) (a s : loc)
  (es : list (value * value)) (h : heap) :
  consumable h a s es ->
  exists h',
    ChainedMap.clear call (VRef a) h = Ok (VRef a, h')
    /\ (forall k, JS.is_array k = false ->
                  ChainedMap.get call (VRef a) k h' = Ok (VUndef, h'))
    /\ ChainedMap.entries E call (VRef a) VUndef h' = Ok ([], h')
    /\ forall l, l <> s -> h' !! l = h !! l.
Proof.
  intros Hc. exists (put_map s [] h).
  pose proof (cons_store _ _ _ _ Hc) as Hst.
  pose proof (cons_map _ _ _ _ Hc) as Hmap.
  assert (Hst' : store_at (put_map s [] h) a s) by now apply put_map_store_at.
  assert (Hmap' : map_at (put_map s [] h) s [])
    by (eapply put_map_map_at; exact Hmap).
  split; [now apply (clear_ok call a s es)|]. split; [|split].
  - intros k Hk.
    now rewrite (ChainedMap_get_ok call a s k [] _ Hst' Hmap' Hk).
  - rewrite (entries_ok E call a s [] _ Hst' Hmap'); [reflexivity|].
    constructor.
  - intros l Hl. rewrite put_map_lookup.
    destruct (h !! l); [|reflexivity].
    apply Nat.eqb_neq in Hl. now rewrite Hl.
Qed.

Lemma clear_empties_store_witness :
  exists h',
    ChainedMap.clear (invoke demo 0) (VRef 24) synthesized = Ok (VRef 24, h')
    /\ (forall k, JS.is_array k = false ->
                  ChainedMap.get (invoke demo 0) (VRef 24) k h'
                  = Ok (VUndef, h'))
    /\ ChainedMap.entries demo (invoke demo 0) (VRef 24) VUndef h'
       = Ok ([], h')
    /\ forall l, l <> 25 -> h' !! l = synthesized !! l.
Proof.
  apply (clear_empties_store demo (invoke demo 0) 24 25
           (entries_at synthesized 25) synthesized).
  apply consumableb_sound. vm_compute. reflexivity.
Defined.

(** ** tap *)

(** X4.  [tap(name, fn)] calls [fn] with the stored value of [name]
    (undefined when there is none) and the merge helper, outside any
    receiver, and then stores what [fn] returned under [name]: the write
    comes after the effects of [fn]. *)
Theorem tap_stores_result (E : env) (fuel : nat) (a s : loc)
  (name_ fn u : value) (c : closure) (es es1 : list (value * value))
  (h h1 : heap) :
  store_at h a s -> map_at h s es -> JS.is_array name_ = false ->
  JS.closure_of h fn = Some c ->
  run E (invoke E fuel) c VUndef
    [JS.or_default (mlookup name_ es) VUndef; dopemerge] h = Ok (u, h1) ->
  store_at h1 a s -> map_at h1 s es1 ->
  exists h2,
    ChainedMap.tap (invoke E (S fuel)) (VRef a) name_ fn h = Ok (VRef a, h2)
    /\ ChainedMap.get (invoke E (S fuel)) (VRef a) name_ h2 = Ok (u, h2).
Proof.
  intros Hst Hmap Hname Hc Hrun Hst1 Hmap1.
  exists (put_map s (mset name_ u es1) h1). split.
  - unfold ChainedMap.tap.
    step (ChainedMap_get_ok (invoke E (S fuel)) a s name_ es h Hst Hmap Hname).
    assert (Hcall : JS.call_value (invoke E (S fuel)) fn
                      [JS.or_default (mlookup name_ es) VUndef; dopemerge] h
                    = Ok (u, h1)).
    { unfold JS.call_value, bind, get_heap, JS.is_callable. rewrite Hc.
      cbn [invoke]. now rewrite Hc. }
    step Hcall. now apply ChainedMap_set_ok.
  - rewrite (ChainedMap_get_ok _ a s name_ (mset name_ u es1)).
    + now rewrite mlookup_mset_eq.
    + now apply put_map_store_at.
    + eapply put_map_map_at. exact Hmap1.
    + exact Hname.
Qed.

Lemma tap_stores_result_witness :
  exists h2,
    ChainedMap.tap (invoke demo 1) (VRef 24) (VStr "calls") (VRef 52)
      with_increment = Ok (VRef 24, h2)
    /\ ChainedMap.get (invoke demo 1) (VRef 24) (VStr "calls") h2
       = Ok (VNum 42, h2).
Proof.
  apply (tap_stores_result demo 0 24 25 (VStr "calls") (VRef 52) (VNum 42)
           CIncrement (entries_at with_increment 25)
           (entries_at with_increment 25) with_increment with_increment).
  - exists true, true, true. vm_compute. reflexivity.
  - eexists. split; vm_compute; reflexivity.
  - reflexivity.
  - vm_compute. reflexivity.
  - vm_compute. reflexivity.
  - exists true, true, true. vm_compute. reflexivity.
  - eexists. split; vm_compute; reflexivity.
Defined.

(** ** clean, in order *)



Lemma alookup_unique {A} (k : string) (a : A) (l : list (string * A)) :
  List.NoDup (map fst l) -> In (k, a) l -> alookup k l = Some a.
Proof.
  induction l as [|[k' a'] l IH]; simpl; [contradiction|].
  intros Hnd Hin. inversion Hnd as [|? ? Hnotin Hnd']; subst.
  destruct Hin as [[= -> ->] | Hin].
  - now rewrite String.eqb_refl.
  - destruct (String.eqb k k') eqn:Hk.
    + apply String.eqb_eq in Hk. subst k'. exfalso. apply Hnotin.
      apply in_map_iff. now exists (k, a).
    + now apply IH.
Qed.






(** ** The method that is installed *)

Lemma returns_stores_any (call : caller) (a s : loc) (parent x cr : value)
  (es : list (value * value)) (h : heap) :
  store_at h a s -> map_at h s es ->
  let h' :=
    put_map s
      (mset (VStr "callReturns") cr
         (mset (VStr "returns") (JS.or x parent) es)) h in
  MethodChain.returns call (VRef a) parent x cr h = Ok (VRef a, h')
  /\ ChainedMap.get call (VRef a) (VStr "returns") h'
     = Ok (JS.or x parent, h')
  /\ ChainedMap.get call (VRef a) (VStr "callReturns") h' = Ok (cr, h').
Proof.
  intros Hst Hmap h'.
  assert (Hst' : store_at h' a s) by (now apply put_map_store_at).
  assert (Hmap' : map_at h' s
            (mset (VStr "callReturns") cr
               (mset (VStr "returns") (JS.or x parent) es)))
    by (eapply put_map_map_at; exact Hmap).
  split; [|split].
  - unfold MethodChain.returns.
    step (ChainedMap_set_ok call a s (VStr "returns") (JS.or x parent) es h
            Hst Hmap eq_refl).
    rewrite (ChainedMap_set_ok call a s _ _
               (mset (VStr "returns") (JS.or x parent) es)).
    + now rewrite put_map_put_map.
    + now apply put_map_store_at.
    + eapply put_map_map_at. exact Hmap.
    + reflexivity.
  - rewrite (ChainedMap_get_ok call a s (VStr "returns") _ h' Hst' Hmap' eq_refl).
    rewrite mlookup_mset_ne by discriminate. now rewrite mlookup_mset_eq.
  - rewrite (ChainedMap_get_ok call a s (VStr "callReturns") _ h' Hst' Hmap'
               eq_refl).
    now rewrite mlookup_mset_eq.
Qed.

(** X6.  [returns(x, callReturns)] stores [x], or the parent when [x] is
    falsy.  When [_build] composes the method from a snapshot whose
    [callReturns] is not [true], the installed method first runs the
    underlying method, the one built without [returns], and then returns
    the stored value whatever the result was; when the underlying method
    throws, so does the installed one. *)
Theorem returns_replaces_result (E : env) (a s : loc)
  (parent0 parent x cr method m : value) (es : list (value * value))
  (built : fields) (hc h h1 : heap) :
  store_at hc a s -> map_at hc s es ->
  JS.truthy (field "returns" built) = true ->
  isTrue (field "callReturns" built) = false ->
  MethodChain._build_method parent built method h = Ok (m, h1) ->
  (exists hc', forall call : caller,
     MethodChain.returns call (VRef a) parent0 x cr hc = Ok (VRef a, hc')
     /\ ChainedMap.get call (VRef a) (VStr "returns") hc'
        = Ok (if JS.truthy x then x else parent0, hc')
     /\ ChainedMap.get call (VRef a) (VStr "callReturns") hc' = Ok (cr, hc'))
  /\ exists ref h0,
       MethodChain._build_method parent (aset "returns" VUndef built) method h
         = Ok (ref, h0)
       /\ forall (fuel : nat) (recv : value) (args : list value) (h2 : heap),
            JS.closure_of h2 m = JS.closure_of h1 m ->
            (forall result h3,
               JS.call_function (invoke E fuel) ref parent args h2
                 = Ok (result, h3) ->
               invoke E (S fuel) m recv args h2
               = Ok (field "returns" built, h3))
            /\ (forall e,
                  JS.call_function (invoke E fuel) ref parent args h2
                    = Throw e ->
                  invoke E (S fuel) m recv args h2 = Throw e).
Proof.
  intros Hst Hmap HR Hcr Hbuild. split.
  - eexists. intros call.
    apply (returns_stores_any call a s parent0 x cr es hc Hst Hmap).
  - unfold MethodChain._build_method in *.
    rewrite !field_aset_ne by discriminate. rewrite field_aset_eq.
    cbn [JS.truthy]. rewrite HR in Hbuild.
    invert_bind Hbuild. invert_bind Hbuild.
    rewrite alloc_fun_ok in Hbuild. injection Hbuild as <- <-.
    exists a1, h2. split.
    + step Hrun. step Hrun0. reflexivity.
    + intros fuel recv args h3 Hsame.
      rewrite closure_of_alloc in Hsame. split.
      * intros result h4 Hcall.
        cbn [invoke]. rewrite Hsame. cbn [run]. unfold argumentor.
        step Hcall. now rewrite Hcr.
      * intros e Hcall.
        cbn [invoke]. rewrite Hsame. cbn [run]. unfold argumentor, bind.
        now rewrite Hcall.
Qed.

Lemma returns_replaces_result_witness :
  let built := [("call", VRef 10); ("returns", VRef 22)] in
  exists ref h0,
    MethodChain._build_method (VRef 22) (aset "returns" VUndef built) VUndef
      configured = Ok (ref, h0)
    /\ forall (fuel : nat) (recv : value) (args : list value) (h2 : heap),
         JS.closure_of h2 (VRef 50)
         = JS.closure_of
             (configured
              ++ [JS.new_fun (CDefaultMethod (VRef 10) (VRef 22) VUndef);
                  JS.new_fun (CReturns (VRef 49) (VRef 22) (VRef 22) VUndef)])
             (VRef 50) ->
         (forall result h3,
            JS.call_function (invoke demo fuel) ref (VRef 22) args h2
              = Ok (result, h3) ->
            invoke demo (S fuel) (VRef 50) recv args h2
            = Ok (field "returns" built, h3))
         /\ (forall e,
               JS.call_function (invoke demo fuel) ref (VRef 22) args h2
                 = Throw e ->
               invoke demo (S fuel) (VRef 50) recv args h2 = Throw e).
Proof.
  intros built.
  destruct (returns_replaces_result demo 24 25 (VRef 22) (VRef 22) VUndef
              VUndef VUndef (VRef 50) (entries_at configured 25) built
              configured configured
              (configured
               ++ [JS.new_fun (CDefaultMethod (VRef 10) (VRef 22) VUndef);
                   JS.new_fun
                     (CReturns (VRef 49) (VRef 22) (VRef 22) VUndef)]))
    as (_ & H).
  - exists true, true, true. vm_compute. reflexivity.
  - eexists. split; vm_compute; reflexivity.
  - reflexivity.
  - reflexivity.
  - vm_compute. reflexivity.
  - exact H.
Defined.

Lemma closure_of_app (h : heap) (o : obj) (l : loc) (c : closure) :
  JS.closure_of h (VRef l) = Some c ->
  JS.closure_of (h ++ [o]) (VRef l) = Some c.
Proof.
  simpl. destruct (h !! l) as [ol|] eqn:Hl; [|discriminate].
  rewrite (lookup_app_l_Some _ _ _ _ Hl). auto.
Qed.

(** X7.  For a name with no method to reuse and no [returns], the
    installed method calls the call handler with the parent as its
    receiver, whatever the receiver of the call and whatever [bind]
    names, and passes its first argument, or the [default] value when
    that argument is undefined. *)
Theorem default_method_runs_handler_on_parent (E : env)
  (parent method m : value) (built : fields) (h h1 : heap) :
  JS.truthy method = false ->
  JS.truthy (field "returns" built) = false ->
  MethodChain._build_method parent built method h = Ok (m, h1) ->
  forall (fuel : nat) (recv : value) (args : list value) (h2 : heap),
    (forall l c, JS.closure_of h1 (VRef l) = Some c ->
                 JS.closure_of h2 (VRef l) = Some c) ->
    invoke E (S (S fuel)) m recv args h2
    = JS.call_function
        (invoke E (if JS.truthy (field "bind" built) then fuel else S fuel))
        (field "call" built) parent
        [if isUndefined (arg 0 args) then field "default" built
         else arg 0 args] h2.
Proof.
  intros Hm Hret Hbuild fuel recv args h2 Hkeep.
  unfold MethodChain._build_method in Hbuild. rewrite Hm, Hret in Hbuild.
  rewrite (bind_ok _ _ _ _ _ (alloc_fun_ok _ h)) in Hbuild.
  destruct (JS.truthy (field "bind" built)) eqn:Hb.
  - invert_bind Hbuild. injection Hbuild as <- <-.
    unfold MethodChain.function_bind, bind, get_heap, JS.is_callable in Hrun.
    rewrite closure_of_alloc in Hrun. rewrite alloc_fun_ok in Hrun.
    injection Hrun as <- <-.
    pose proof (Hkeep _ _ (closure_of_alloc _ _)) as Hc2.
    pose proof (Hkeep _ _ (closure_of_app _ _ _ _ (closure_of_alloc _ h))) as Hc1.
    cbn [invoke]. rewrite Hc2. cbn [run invoke].
    rewrite Hc1. cbn [run]. reflexivity.
  - unfold bind, ret in Hbuild. injection Hbuild as <- <-.
    pose proof (Hkeep _ _ (closure_of_alloc _ h)) as Hc1.
    cbn [invoke]. rewrite Hc1. cbn [run]. reflexivity.
Qed.

Lemma default_method_runs_handler_on_parent_witness :
  invoke demo 3 (VRef 50) (VRef 24) [VUndef; VNum 1]
    (configured
     ++ [JS.new_fun (CDefaultMethod (VRef 10) (VRef 22) (VNum 3));
         JS.new_fun (CBound (VRef 49) (VRef 24))])
  = JS.call_function (invoke demo 1) (VRef 10) (VRef 22) [VNum 3]
      (configured
       ++ [JS.new_fun (CDefaultMethod (VRef 10) (VRef 22) (VNum 3));
           JS.new_fun (CBound (VRef 49) (VRef 24))]).
Proof.
  apply (default_method_runs_handler_on_parent demo (VRef 22) VUndef (VRef 50)
           [("call", VRef 10); ("default", VNum 3); ("bind", VRef 24)]
           configured
           (configured
            ++ [JS.new_fun (CDefaultMethod (VRef 10) (VRef 22) (VNum 3));
                JS.new_fun (CBound (VRef 49) (VRef 24))])
           eq_refl eq_refl eq_refl 1 (VRef 24) [VUndef; VNum 1]).
  auto.
Defined.

(** ** Installation *)

Lemma apply_descriptor_of (cur : option prop) (p : prop) :
  JS.apply_descriptor cur (JS.descriptor_of p) = p.
Proof. destruct cur as [[? ? ? ?|? ? ? ?]|], p; reflexivity. Qed.

(** [Object.defineProperty] of a name the object does not own. *)
Lemma ObjectDefine_fresh (t : loc) (k : string) (d : descriptor) (o : obj)
  (h : heap) :
  h !! t = Some o -> o_ext o = true -> alookup k (o_props o) = None ->
  JS.callable_or_undefined h (d_get d) = true ->
  JS.callable_or_undefined h (d_set d) = true ->
  JS.is_accessor_descriptor d && JS.is_data_descriptor d = false ->
  JS.ObjectDefine (VRef t) k (Some d) h
  = Ok (tt, mark t k (JS.apply_descriptor None d) h).
Proof.
  intros Ht Hext Hk Hg Hs Hmix.
  unfold JS.ObjectDefine, bind, get_heap. rewrite Ht, Hg, Hs, Hmix, Hk, Hext.
  cbn [andb negb]. unfold JS.update, mark. now rewrite Ht.
Qed.

Lemma mark_ext (m l : loc) (k0 : string) (p : prop) (h : heap) (o : obj) :
  h !! l = Some o ->
  exists o', mark m k0 p h !! l = Some o' /\ o_ext o' = o_ext o
             /\ o_proto o' = o_proto o /\ o_kind o' = o_kind o.
Proof.
  intros Hl. rewrite mark_lookup, Hl. eexists. split; [reflexivity|].
  now destruct (Nat.eqb l m).
Qed.

Lemma mark_other (m l : loc) (k0 : string) (p : prop) (h : heap) :
  l <> m -> mark m k0 p h !! l = h !! l.
Proof.
  intros Hne. rewrite mark_lookup. destruct (h !! l); [|reflexivity].
  apply Nat.eqb_neq in Hne. now rewrite Hne.
Qed.

Lemma mark_callable_or_undefined (m : loc) (k0 : string) (p : prop) (h : heap)
  (o : option value) :
  JS.callable_or_undefined (mark m k0 p h) o = JS.callable_or_undefined h o.
Proof.
  destruct o as [v|]; [|reflexivity].
  destruct v; try reflexivity;
    unfold JS.callable_or_undefined, JS.is_callable;
    now rewrite mark_closure_of.
Qed.

Lemma mark_valid_prop (m : loc) (k0 : string) (p q : prop) (h : heap) :
  valid_prop h q -> valid_prop (mark m k0 p h) q.
Proof.
  destruct q as [|g s e c]; [auto|]. unfold valid_prop.
  now rewrite !mark_callable_or_undefined.
Qed.

Lemma descriptor_of_valid (h : heap) (p : prop) :
  valid_prop h p ->
  JS.callable_or_undefined h (d_get (JS.descriptor_of p)) = true
  /\ JS.callable_or_undefined h (d_set (JS.descriptor_of p)) = true
  /\ JS.is_accessor_descriptor (JS.descriptor_of p)
     && JS.is_data_descriptor (JS.descriptor_of p) = false.
Proof. destruct p; simpl; tauto. Qed.

Lemma aliasFactory_loop (E : env) (t : loc) (k : string) (p : prop) :
  forall (ks : list string) (h : heap) (o : obj),
    h !! t = Some o -> o_ext o = true ->
    JS.own_prop h t k = Some p -> valid_prop h p ->
    (forall ka, In ka ks -> JS.own_prop h t ka = None) ->
    List.NoDup ks ->
    for_each
      (fun a =>
         k <- JS.key_of E (VStr k) ;;
         d <- JS.getDescriptor (VRef t) k ;;
         ka <- JS.key_of E a ;;
         JS.ObjectDefine (VRef t) ka d)
      (map VStr ks) h
    = Ok (tt, mark_all t ks p h).
Proof.
  induction ks as [|ka ks IH]; intros h o Ht Hext Hk Hvalid Hfresh Hnd.
  - reflexivity.
  - inversion Hnd as [|? ? Hnotin Hnd']; subst.
    cbn [map for_each mark_all fold_left].
    assert (Hstep :
      (k0 <- JS.key_of E (VStr k) ;;
       d <- JS.getDescriptor (VRef t) k0 ;;
       ka0 <- JS.key_of E (VStr ka) ;;
       JS.ObjectDefine (VRef t) ka0 d) h = Ok (tt, mark t ka p h)).
    { step (key_of_ok E (VStr k) k h eq_refl).
      step (getDescriptor_ok t k h). rewrite Hk. cbn [option_map].
      step (key_of_ok E (VStr ka) ka h eq_refl).
      destruct (descriptor_of_valid h p Hvalid) as (Hg & Hs & Hmix).
      assert (Hka : alookup ka (o_props o) = None).
      { specialize (Hfresh ka (or_introl eq_refl)).
        unfold JS.own_prop in Hfresh. now rewrite Ht in Hfresh. }
      rewrite (ObjectDefine_fresh t ka _ o h Ht Hext Hka Hg Hs Hmix).
      now rewrite apply_descriptor_of. }
    step Hstep.
    assert (Hne : k <> ka).
    { intros ->. rewrite (Hfresh ka (or_introl eq_refl)) in Hk. discriminate. }
    destruct (mark_ext t t ka p h o Ht) as (o' & Ho' & Hext' & _).
    apply (IH (mark t ka p h) o' Ho').
    + congruence.
    + now rewrite mark_own_prop_ne.
    + now apply mark_valid_prop.
    + intros kb Hin. rewrite mark_own_prop_ne.
      * apply Hfresh. now right.
      * intros ->. contradiction.
    + exact Hnd'.
Qed.

Lemma mark_all_own_prop_out (t : loc) (p : prop) (l : loc) (k : string) :
  forall (ks : list string) (h : heap),
    ~ In k ks ->
    JS.own_prop (mark_all t ks p h) l k = JS.own_prop h l k.
Proof.
  induction ks as [|kb ks IH]; intros h Hnin; [reflexivity|].
  cbn [mark_all fold_left]. fold (mark_all t ks p (mark t kb p h)).
  rewrite IH by (intros H; apply Hnin; now right).
  apply mark_own_prop_ne. intros ->. apply Hnin. now left.
Qed.

Lemma mark_all_own_prop_in (t : loc) (p : prop) :
  forall (ks : list string) (h : heap) (o : obj) (ka : string),
    h !! t = Some o -> In ka ks ->
    JS.own_prop (mark_all t ks p h) t ka = Some p.
Proof.
  induction ks as [|kb ks IH]; intros h o ka Ht Hin; [contradiction|].
  cbn [mark_all fold_left]. fold (mark_all t ks p (mark t kb p h)).
  destruct (mark_ext t t kb p h o Ht) as (o' & Ho' & _).
  destruct (in_dec String.string_dec ka ks) as [Hin'|Hnin].
  - now apply (IH _ o').
  - destruct Hin as [->|Hin]; [|contradiction].
    rewrite mark_all_own_prop_out by assumption.
    now apply (mark_own_prop_eq t ka p h o).
Qed.

Lemma mark_all_other (t l : loc) (p : prop) :
  forall (ks : list string) (h : heap),
    l <> t -> mark_all t ks p h !! l = h !! l.
Proof.
  induction ks as [|kb ks IH]; intros h Hne; [reflexivity|].
  cbn [mark_all fold_left]. fold (mark_all t ks p (mark t kb p h)).
  rewrite IH by assumption. now apply mark_other.
Qed.

(** X8.  [aliasFactory(name, target, aliases)]: when the target owns
    [name] and is extensible, and the aliases are new names on it, every
    alias gets the very property of [name], with the same value or
    accessors and the same attributes; no other member and no other
    object changes.  Without aliases nothing happens. *)
Theorem aliases_share_the_property (E : env) (t : loc) (k : string)
  (ks : list string) (p : prop) (o : obj) (h : heap) :
  h !! t = Some o -> o_ext o = true ->
  JS.own_prop h t k = Some p -> valid_prop h p ->
  (forall ka, In ka ks -> JS.own_prop h t ka = None) ->
  List.NoDup ks ->
  MethodChain.aliasFactory E (VStr k) (VRef t) VUndef h = Ok (tt, h)
  /\ exists h',
       MethodChain.aliasFactory E (VStr k) (VRef t) (VArr (map VStr ks)) h
         = Ok (tt, h')
       /\ (forall ka, In ka ks -> JS.own_prop h' t ka = Some p)
       /\ (forall k', ~ In k' ks -> JS.own_prop h' t k' = JS.own_prop h t k')
       /\ (forall l, l <> t -> h' !! l = h !! l).
Proof.
  intros Ht Hext Hk Hvalid Hfresh Hnd. split; [reflexivity|].
  exists (mark_all t ks p h). split; [|split; [|split]].
  - unfold MethodChain.aliasFactory. cbn [JS.truthy].
    now apply (aliasFactory_loop E t k p ks h o).
  - intros ka Hin. now apply (mark_all_own_prop_in t p ks h o).
  - intros k' Hnin. now apply mark_all_own_prop_out.
  - intros l Hne. now apply mark_all_other.
Qed.

Lemma aliases_share_the_property_witness :
  exists h',
    MethodChain.aliasFactory demo (VStr "x") (VRef 22)
      (VArr (map VStr ["a"; "b"])) with_x = Ok (tt, h')
    /\ (forall ka, In ka ["a"; "b"] ->
          JS.own_prop h' 22 ka = Some (PData (VRef 9) false false false))
    /\ (forall k', ~ In k' ["a"; "b"] ->
          JS.own_prop h' 22 k' = JS.own_prop with_x 22 k')
    /\ (forall l, l <> 22 -> h' !! l = with_x !! l).
Proof.
  eapply (aliases_share_the_property demo 22 "x" ["a"; "b"]
            (PData (VRef 9) false false false)).
  - vm_compute. reflexivity.
  - reflexivity.
  - vm_compute. reflexivity.
  - exact I.
  - intros ka [<-|[<-|[]]]; vm_compute; reflexivity.
  - repeat constructor; simpl; intuition discriminate.
Defined.



(** ** The default handlers *)

Lemma agree_refl (h : heap) : agree h h.
Proof. intros l o Hl. now exists o. Qed.

Lemma agree_trans (h1 h2 h3 : heap) : agree h1 h2 -> agree h2 h3 -> agree h1 h3.
Proof.
  intros H12 H23 l o Hl.
  destruct (H12 l o Hl) as (o2 & Hl2 & Hp2 & Hq2).
  destruct (H23 l o2 Hl2) as (o3 & Hl3 & Hp3 & Hq3).
  exists o3. repeat split; congruence.
Qed.

Lemma agree_put_map (s : loc) (es : list (value * value)) (h : heap) :
  agree h (put_map s es h).
Proof.
  intros l o Hl. rewrite put_map_lookup, Hl. eexists. split; [reflexivity|].
  now destruct (Nat.eqb l s).
Qed.

Lemma agree_flagged (parent name_ : value) (h : heap) :
  agree h (flagged parent name_ h).
Proof.
  intros l o Hl. unfold flagged. rewrite !mark_lookup.
  rewrite (lookup_app_l_Some _ _ _ _ (lookup_app_l_Some _ _ _ _ Hl)).
  pose proof (lookup_lt_Some _ _ _ Hl) as Hlt.
  assert (H1 : Nat.eqb l (length h) = false) by (apply Nat.eqb_neq; lia).
  assert (H2 : Nat.eqb l (S (length h)) = false) by (apply Nat.eqb_neq; lia).
  rewrite H1, H2. now exists o.
Qed.

Lemma unset_or_defaulted_ok (call : caller) (h h' : heap) (v : value)
  (b : bool) :
  defaulted_flag h v = Some b -> agree h h' ->
  MethodChain.unset_or_defaulted call v h' = Ok (b, h').
Proof.
  unfold defaulted_flag, MethodChain.unset_or_defaulted. intros Hflag Hag.
  destruct (JS.truthy v); [|now injection Hflag as <-].
  destruct v as [| | | | | | |f]; try discriminate.
  destruct (h !! f) as [o|] eqn:Hf; [|discriminate].
  destruct (Hag f o Hf) as (o' & Hf' & Hp & Hq).
  destruct (alookup "defaulted" (o_props o)) as [[d w e c|]|] eqn:Hd;
    try discriminate.
  - injection Hflag as <-.
    assert (Hown : JS.own_prop h' f "defaulted" = Some (PData d w e c)).
    { unfold JS.own_prop. now rewrite Hf', Hp. }
    step (get_prop_own_data call h' f "defaulted" d w e c Hown). reflexivity.
  - destruct (o_proto o) eqn:Hpr; [discriminate|]. injection Hflag as <-.
    assert (Hnone : JS.find_prop (length h') h' f "defaulted" = None).
    { destruct (length h'); simpl; rewrite Hf', Hp, Hd; [reflexivity|].
      rewrite Hq. reflexivity. }
    unfold JS.get_prop, bind, get_heap. now rewrite Hnone.
Qed.

Lemma own_prop_app (h x : heap) (l : loc) (k : string) (p : prop) :
  JS.own_prop h l k = Some p -> JS.own_prop (h ++ x) l k = Some p.
Proof.
  unfold JS.own_prop. destruct (h !! l) as [o|] eqn:Hl; [|discriminate].
  now rewrite (lookup_app_l_Some _ _ _ _ Hl).
Qed.

Lemma mark_own_prop_other (m l : loc) (k0 k : string) (p : prop) (h : heap) :
  l <> m -> JS.own_prop (mark m k0 p h) l k = JS.own_prop h l k.
Proof. intros Hne. unfold JS.own_prop. now rewrite mark_other. Qed.

Lemma flagged_own_prop (parent name_ : value) (h : heap) (l : loc) (k : string)
  (p : prop) :
  JS.own_prop h l k = Some p -> JS.own_prop (flagged parent name_ h) l k = Some p.
Proof.
  intros H. unfold JS.own_prop in *.
  destruct (h !! l) as [o|] eqn:Hl; [|discriminate].
  destruct (agree_flagged parent name_ h l o Hl) as (o' & -> & -> & _).
  exact H.
Qed.

Lemma flagged_closure_of (parent name_ : value) (h : heap) (l : loc)
  (c : closure) :
  JS.closure_of h (VRef l) = Some c ->
  JS.closure_of (flagged parent name_ h) (VRef l) = Some c.
Proof.
  intros H. unfold flagged. rewrite !mark_closure_of.
  now apply closure_of_app, closure_of_app.
Qed.

Lemma flagged_own_method (parent name_ : value) (h : heap) (a : loc)
  (k : string) (c : closure) :
  own_method h a k c -> own_method (flagged parent name_ h) a k c.
Proof.
  intros (f & w & e & cf & Hp & Hc). exists f, w, e, cf. split.
  - now apply flagged_own_prop.
  - now apply flagged_closure_of.
Qed.

Lemma flagged_map_at (parent name_ : value) (h : heap) (s : loc)
  (es : list (value * value)) :
  map_at h s es -> map_at (flagged parent name_ h) s es.
Proof.
  intros (o & Ho & Hk). unfold flagged.
  apply mark_map_at, mark_map_at. exists o. split; [|exact Hk].
  now apply lookup_app_l_Some, lookup_app_l_Some.
Qed.

Lemma flagged_store_at (parent name_ : value) (h : heap) (a s : loc) :
  store_at h a s -> store_at (flagged parent name_ h) a s.
Proof.
  intros (w & e & c & H). exists w, e, c. now apply flagged_own_prop.
Qed.

Lemma flagged_lookups (parent name_ : value) (h : heap) :
  let flag := ("defaulted", PData (VBool true) true true true) in
  flagged parent name_ h !! length h
  = Some (Obj None true [("name", PData (VStr "") false false true); flag]
            (KFun (CDefaultOnSet parent name_)))
  /\ flagged parent name_ h !! S (length h)
     = Some (Obj None true [("name", PData (VStr "") false false true); flag]
               (KFun (CDefaultOnGet parent name_))).
Proof.
  unfold flagged. rewrite !mark_lookup.
  assert (H1 : ((h ++ [JS.new_fun (CDefaultOnSet parent name_)])
                  ++ [JS.new_fun (CDefaultOnGet parent name_)]) !! length h
               = Some (JS.new_fun (CDefaultOnSet parent name_))).
  { apply lookup_app_l_Some. rewrite lookup_app_r by lia.
    now rewrite Nat.sub_diag. }
  assert (H2 : ((h ++ [JS.new_fun (CDefaultOnSet parent name_)])
                  ++ [JS.new_fun (CDefaultOnGet parent name_)]) !! S (length h)
               = Some (JS.new_fun (CDefaultOnGet parent name_))).
  { rewrite lookup_app_r by (rewrite length_app; simpl; lia).
    rewrite length_app. simpl.
    replace (S (length h) - (length h + 1)) with 0 by lia. reflexivity. }
  rewrite H1, H2, !Nat.eqb_refl.
  assert (Hn1 : Nat.eqb (length h) (S (length h)) = false)
    by (apply Nat.eqb_neq; lia).
  assert (Hn2 : Nat.eqb (S (length h)) (length h) = false)
    by (apply Nat.eqb_neq; lia).
  rewrite Hn1, Hn2. split; reflexivity.
Qed.

Lemma find_prop_orphan (d : nat) (h : heap) (l : loc) (k : string) (o : obj) :
  h !! l = Some o -> alookup k (o_props o) = None -> o_proto o = None ->
  JS.find_prop d h l k = None.
Proof.
  intros Hl Hk Hp. destruct d; simpl; rewrite Hl, Hk; [reflexivity|].
  now rewrite Hp.
Qed.

Lemma _defaults_flags (call : caller) (parent name_ : value) (h : heap) :
  let f1 := JS.new_fun (CDefaultOnSet parent name_) in
  let f2 := JS.new_fun (CDefaultOnGet parent name_) in
  let P := PData (VBool true) true true true in
  JS.set_prop call true (VRef (length h)) "defaulted" (VBool true)
    ((h ++ [f1]) ++ [f2])
  = Ok (tt, mark (length h) "defaulted" P ((h ++ [f1]) ++ [f2]))
  /\ JS.set_prop call true (VRef (S (length h))) "defaulted" (VBool true)
       (mark (length h) "defaulted" P ((h ++ [f1]) ++ [f2]))
     = Ok (tt, flagged parent name_ h).
Proof.
  intros f1 f2 P. set (h2 := (h ++ [f1]) ++ [f2]).
  assert (H1 : h2 !! length h = Some f1).
  { apply lookup_app_l_Some. rewrite lookup_app_r by lia.
    now rewrite Nat.sub_diag. }
  assert (H2 : h2 !! S (length h) = Some f2).
  { unfold h2. rewrite lookup_app_r by (rewrite length_app; simpl; lia).
    rewrite length_app. simpl.
    replace (S (length h) - (length h + 1)) with 0 by lia. reflexivity. }
  split.
  - apply set_prop_accepts. exists f1. split; [exact H1|]. left.
    split; [|split; reflexivity].
    now apply (find_prop_orphan _ _ _ _ f1).
  - apply set_prop_accepts. exists f2.
    assert (H2' : mark (length h) "defaulted" P h2 !! S (length h) = Some f2)
      by (rewrite mark_other by lia; exact H2).
    split; [exact H2'|]. left. split; [|split; reflexivity].
    now apply (find_prop_orphan _ _ _ _ f2).
Qed.

(** X10.  [_defaults(name, parent, built)] fills only the gaps of the
    snapshot [built]: a handler that is absent or carries a truthy
    [defaulted] flag is replaced in the store, an explicit one is left
    alone.  The get handler becomes the new default getter; the call and
    the set handler become one and the same new default setter.  Both
    new functions carry [defaulted = true], and no object other than the
    store of the chain changes. *)
Theorem defaults_fill_only_the_gaps (E : env) (fuel : nat) (a s : loc)
  (p0 p1 p2 name_ parent : value) (built : fields)
  (es : list (value * value)) (bg bc bs : bool) (h : heap) :
  own_method h a "onGet" (COwn MO_onGet (VRef a) p0) ->
  own_method h a "onCall" (COwn MO_onCall (VRef a) p1) ->
  own_method h a "onSet" (COwn MO_onSet (VRef a) p2) ->
  store_at h a s -> map_at h s es ->
  defaulted_flag h (field "get" built) = Some bg ->
  defaulted_flag h (field "call" built) = Some bc ->
  defaulted_flag h (field "set" built) = Some bs ->
  let dS := VRef (length h) in
  let dG := VRef (S (length h)) in
  let es1 := if bg then mset (VStr "get") dG es else es in
  let es2 := if bc then mset (VStr "call") dS es1 else es1 in
  let es3 := if bs then mset (VStr "set") dS es2 else es2 in
  exists h',
    MethodChain._defaults (invoke E (S fuel)) (VRef a) name_ parent built h
    = Ok (tt, h')
    /\ map_at h' s es3
    /\ JS.closure_of h' dS = Some (CDefaultOnSet parent name_)
    /\ JS.closure_of h' dG = Some (CDefaultOnGet parent name_)
    /\ JS.own_prop h' (length h) "defaulted"
       = Some (PData (VBool true) true true true)
    /\ JS.own_prop h' (S (length h)) "defaulted"
       = Some (PData (VBool true) true true true)
    /\ (forall l o, h !! l = Some o -> l <> s -> h' !! l = Some o).
Proof.
  intros HonGet HonCall HonSet Hst Hmap Hg Hc Hs dS dG es1 es2 es3.
  set (h1 := flagged parent name_ h).
  assert (Hag1 : agree h h1) by apply agree_flagged.
  assert (Hst1 : store_at h1 a s) by now apply flagged_store_at.
  assert (Hmap1 : map_at h1 s es) by now apply flagged_map_at.
  assert (HonGet1 := flagged_own_method parent name_ h _ _ _ HonGet).
  assert (HonCall1 := flagged_own_method parent name_ h _ _ _ HonCall).
  assert (HonSet1 := flagged_own_method parent name_ h _ _ _ HonSet).
  fold h1 in HonGet1, HonCall1, HonSet1.
  destruct (flagged_lookups parent name_ h) as [Hl1 Hl2]. fold h1 in Hl1, Hl2.
  destruct (_defaults_flags (invoke E (S fuel)) parent name_ h) as [Hf1 Hf2].
  fold h1 in Hf2.
  exists (put_map s es3 h1).
  assert (Hrun :
    MethodChain._defaults (invoke E (S fuel)) (VRef a) name_ parent built h
    = Ok (tt, put_map s es3 h1)).
  { unfold MethodChain._defaults.
    step (alloc_fun_ok (CDefaultOnSet parent name_) h).
    step (alloc_fun_ok (CDefaultOnGet parent name_)
            (h ++ [JS.new_fun (CDefaultOnSet parent name_)])).
    replace (length (h ++ [JS.new_fun (CDefaultOnSet parent name_)]))
      with (S (length h)) by (rewrite length_app; simpl; lia).
    step Hf1. step Hf2.
    (* get *)
    step (unset_or_defaulted_ok (invoke E (S fuel)) h h1 _ bg Hg Hag1).
    assert (Hget :
      (if bg
       then JS.call_method (invoke E (S fuel)) (VRef a) "onGet" [dG] ;; ret tt
       else ret tt) h1 = Ok (tt, put_map s es1 h1)).
    { unfold es1. destruct bg.
      - assert (Hcall : JS.call_method (invoke E (S fuel)) (VRef a) "onGet" [dG] h1
                        = Ok (VRef a, put_map s (mset (VStr "get") dG es) h1)).
        { rewrite (call_method_own E fuel a "onGet" _ _ _ HonGet1).
          simpl. unfold MethodChain.onGet. now apply ChainedMap_set_ok. }
        step Hcall. reflexivity.
      - now rewrite (put_map_same s es h1 Hmap1). }
    step Hget.
    assert (Hmap2 : map_at (put_map s es1 h1) s es1)
      by (eapply put_map_map_at; exact Hmap1).
    assert (Hag2 : agree h (put_map s es1 h1))
      by (eapply agree_trans; [exact Hag1 | apply agree_put_map]).
    (* call *)
    step (unset_or_defaulted_ok (invoke E (S fuel)) h _ _ bc Hc Hag2).
    assert (Hcl :
      (if bc
       then JS.call_method (invoke E (S fuel)) (VRef a) "onCall" [dS] ;; ret tt
       else ret tt) (put_map s es1 h1) = Ok (tt, put_map s es2 h1)).
    { unfold es2. destruct bc.
      - assert (Hcall : JS.call_method (invoke E (S fuel)) (VRef a) "onCall" [dS]
                          (put_map s es1 h1)
                        = Ok (VRef a, put_map s (mset (VStr "call") dS es1) h1)).
        { rewrite (call_method_own E fuel a "onCall"
                     (COwn MO_onCall (VRef a) p1)).
          - simpl. unfold MethodChain.onCall.
            rewrite (ChainedMap_set_ok _ a s _ _ es1).
            + now rewrite put_map_put_map.
            + now apply put_map_store_at.
            + exact Hmap2.
            + reflexivity.
          - eapply put_map_own_method; [exact Hmap1 | exact HonCall1]. }
        step Hcall. reflexivity.
      - reflexivity. }
    step Hcl.
    assert (Hmap3 : map_at (put_map s es2 h1) s es2)
      by (eapply put_map_map_at; exact Hmap1).
    assert (Hag3 : agree h (put_map s es2 h1))
      by (eapply agree_trans; [exact Hag1 | apply agree_put_map]).
    (* set *)
    step (unset_or_defaulted_ok (invoke E (S fuel)) h _ _ bs Hs Hag3).
    unfold es3. destruct bs.
    - assert (Hcall : JS.call_method (invoke E (S fuel)) (VRef a) "onSet" [dS]
                        (put_map s es2 h1)
                      = Ok (VRef a, put_map s (mset (VStr "set") dS es2) h1)).
      { rewrite (call_method_own E fuel a "onSet"
                   (COwn MO_onSet (VRef a) p2)).
        - simpl. unfold MethodChain.onSet.
          rewrite (ChainedMap_set_ok _ a s _ _ es2).
          + now rewrite put_map_put_map.
          + now apply put_map_store_at.
          + exact Hmap3.
          + reflexivity.
        - eapply put_map_own_method; [exact Hmap1 | exact HonSet1]. }
      step Hcall. reflexivity.
    - reflexivity. }
  split; [exact Hrun|].
  split; [eapply put_map_map_at; exact Hmap1|].
  split.
  { rewrite (put_map_closure_of _ _ _ _ _ Hmap1). unfold dS. simpl.
    now rewrite Hl1. }
  split.
  { rewrite (put_map_closure_of _ _ _ _ _ Hmap1). unfold dG. simpl.
    now rewrite Hl2. }
  split.
  { rewrite put_map_own_prop. unfold JS.own_prop. now rewrite Hl1. }
  split.
  { rewrite put_map_own_prop. unfold JS.own_prop. now rewrite Hl2. }
  intros l o Hl Hne. rewrite put_map_lookup.
  unfold h1, flagged. rewrite !mark_lookup.
  rewrite (lookup_app_l_Some _ _ _ _ (lookup_app_l_Some _ _ _ _ Hl)).
  pose proof (lookup_lt_Some _ _ _ Hl) as Hlt.
  assert (H1 : Nat.eqb l (length h) = false) by (apply Nat.eqb_neq; lia).
  assert (H2 : Nat.eqb l (S (length h)) = false) by (apply Nat.eqb_neq; lia).
  assert (H3 : Nat.eqb l s = false) by (now apply Nat.eqb_neq).
  now rewrite H1, H2, H3.
Qed.

Lemma defaults_fill_only_the_gaps_witness :
  exists h',
    MethodChain._defaults (invoke demo 1) (VRef 24) (VStr "eh") (VRef 22)
      [("names", VStr "eh"); ("get", VRef 9)] with_getter
    = Ok (tt, h')
    /\ map_at h' 25
         (mset (VStr "set") (VRef 49)
            (mset (VStr "call") (VRef 49)
               [(VStr "names", VStr "eh"); (VStr "get", VRef 9)]))
    /\ JS.closure_of h' (VRef 49)
       = Some (CDefaultOnSet (VRef 22) (VStr "eh"))
    /\ JS.closure_of h' (VRef 50)
       = Some (CDefaultOnGet (VRef 22) (VStr "eh"))
    /\ JS.own_prop h' 49 "defaulted" = Some (PData (VBool true) true true true)
    /\ JS.own_prop h' 50 "defaulted" = Some (PData (VBool true) true true true)
    /\ (forall l o, with_getter !! l = Some o -> l <> 25 -> h' !! l = Some o).
Proof.
  refine (defaults_fill_only_the_gaps demo 0 24 25 (VRef 22) (VRef 22)
            (VRef 22) (VStr "eh") (VRef 22)
            [("names", VStr "eh"); ("get", VRef 9)]
            [(VStr "names", VStr "eh"); (VStr "get", VRef 9)] false true true
            with_getter _ _ _ _ _ _ _ _).
  - do 4 eexists. split; vm_compute; reflexivity.
  - do 4 eexists. split; vm_compute; reflexivity.
  - do 4 eexists. split; vm_compute; reflexivity.
  - do 3 eexists. vm_compute. reflexivity.
  - eexists. split; vm_compute; reflexivity.
  - vm_compute. reflexivity.
  - reflexivity.
  - reflexivity.
Defined.

(** ** Names that cannot be built *)

(** X11.  When the object a name is built on owns the name as a
    configurable property whose descriptor has no object under [value]
    (an accessor property, or a data property holding a primitive,
    [null] or [undefined]), [_build] raises: the assignment
    [method.decorated = true] of line 317 fails in the strict code of
    the class. *)
Theorem owned_primitive_cannot_be_built (E : env) (call : caller)
  (this name_ : value) (k : string) (l : loc) (p : prop) (h : heap) :
  JS.to_key E h name_ = Some k ->
  JS.own_prop h l k = Some p ->
  JS.prop_configurable p = true ->
  holds_members (d_value (JS.descriptor_of p)) = false ->
  exists msg, MethodChain._build E call this name_ (VRef l) h = Throw msg.
Proof.
  intros Hk Hown Hconf Hval.
  assert (Hex : exists msg,
            MethodChain._build_existing E call this name_ (VRef l) h
            = Throw msg).
  { unfold MethodChain._build_existing.
    step (key_of_ok E _ _ h Hk).
    step (hasOwnProperty_ok l k h). rewrite Hown.
    step (getDescriptor_ok l k h). rewrite Hown. cbn [option_map].
    rewrite descriptor_of_configurable, Hconf.
    unfold MethodChain.reuse.
    destruct p as [v w e c|g s e c];
      cbn [JS.descriptor_of d_value JS.or_default].
    - destruct v; try discriminate; eexists; reflexivity.
    - eexists; reflexivity. }
  destruct Hex as (msg & Hex). exists msg.
  unfold MethodChain._build, bind at 1. now rewrite Hex.
Qed.

Lemma owned_primitive_cannot_be_built_witness :
  exists msg,
    MethodChain._build demo (invoke demo 3) (VRef 24) (VStr "x") (VRef 22)
      with_number = Throw msg.
Proof.
  apply (owned_primitive_cannot_be_built demo (invoke demo 3) (VRef 24)
           (VStr "x") "x" 22 (PData (VNum 1) true true true));
    reflexivity.
Defined.

(** X12.  [decorate(parentToDecorate)] with nothing to decorate: when
    the argument is falsy and the parent of the chain has no truthy
    [parent] of its own to fall back on, the call raises
    [must provide parent argument] in development mode and otherwise
    returns the chain with the heap as it was: no target is stored and
    no factory is queued. *)
Theorem decorate_needs_a_target (E : env) (call : caller) (a p : loc)
  (w e c : bool) (ptd : value) (h : heap) :
  JS.truthy ptd = false ->
  JS.own_prop h a "parent" = Some (PData (VRef p) w e c) ->
  reads_falsy h p "parent" = true ->
  MethodChain.decorate E call (VRef a) ptd h
  = if ENV_DEVELOPMENT E
    then Throw "Error: must provide parent argument"
    else Ok (VRef a, h).
Proof.
  intros Hptd Hpar Hfalsy. unfold MethodChain.decorate. rewrite Hptd.
  assert (Hget : exists v, JS.get_prop call (VRef p) "parent" h = Ok (v, h)
                           /\ JS.truthy v = false).
  { unfold reads_falsy in Hfalsy. unfold JS.get_prop, bind, get_heap.
    destruct (JS.find_prop (length h) h p "parent") as [[v ? ? ?|? ? ? ?]|];
      try discriminate.
    - exists v. split; [reflexivity|]. now destruct (JS.truthy v).
    - now exists VUndef. }
  destruct Hget as (v & Hget & Hv).
  assert (Hboth :
    (p0 <- JS.get_prop call (VRef a) "parent" ;; JS.get_prop call p0 "parent") h
    = Ok (v, h)).
  { step (get_prop_own_data call h a "parent" (VRef p) w e c Hpar).
    exact Hget. }
  step Hboth. rewrite Hv. cbn [negb].
  now destruct (ENV_DEVELOPMENT E).
Qed.

Lemma decorate_needs_a_target_witness :
  MethodChain.decorate demo (invoke demo 3) (VRef 24) VUndef configured
  = Ok (VRef 24, configured).
Proof.
  apply (decorate_needs_a_target demo (invoke demo 3) 24 22 true true true);
    reflexivity.
Defined.

(** ** The key table *)

(** X13.  [access] of keymap.js.  For an index inside the table, with
    [k] the name at that index: [access(i)] is the name;
    [access(i, obj, val)] with [val] not [undefined] assigns [obj[k]]
    and returns [val], and [access(i, obj)] then reads [val] back
    without changing anything.  With [val] left [undefined] the call
    reads instead of writing, so [undefined] cannot be stored this way.
    [KEY_UNDEFINED], 9, is the index of the name [null]. *)
Theorem access_round_trip (E : env) (call : caller) (i : nat) (k : string)
  (l : loc) (val : value) (p : prop) (h : heap) :
  Keymap.keys !! i = Some k ->
  accepts h l k val p ->
  isUndefined val = false ->
  let index := VNum (Z.of_nat i) in
  let h' := mark l k p h in
  Keymap.access E call index VUndef VUndef h = Ok (VStr k, h)
  /\ Keymap.access E call index (VRef l) val h = Ok (val, h')
  /\ Keymap.access E call index (VRef l) VUndef h' = Ok (val, h')
  /\ Keymap.access E call index (VRef l) VUndef h
     = JS.get_prop call (VRef l) k h
  /\ Keymap.keys !! Z.to_nat Keymap.KEY_UNDEFINED = Some "null".
Proof.
  intros Hi Hacc Hval index h'.
  assert (Hkey : forall h0, Keymap.key_at index h0 = Ok (VStr k, h0)).
  { intros h0. unfold Keymap.key_at, index.
    assert (Hle : (0 <=? Z.of_nat i)%Z = true) by (apply Z.leb_le; lia).
    rewrite Hle, Nat2Z.id, Hi. reflexivity. }
  destruct (accepts_value h l k val p Hacc) as (e & c & Hp).
  destruct Hacc as (o & Ho & Hcase).
  assert (Hown : JS.own_prop h' l k = Some (PData val true e c)).
  { unfold h'. rewrite (mark_own_prop_eq l k p h o Ho). now rewrite Hp. }
  repeat split.
  - unfold Keymap.access. step (Hkey h). reflexivity.
  - unfold Keymap.access. step (Hkey h). cbn [isUndefined].
    step (key_of_ok E (VStr k) k h eq_refl). rewrite Hval.
    step (set_prop_accepts call false l k val p h
            (ex_intro _ o (conj Ho Hcase))).
    reflexivity.
  - unfold Keymap.access. step (Hkey h'). cbn [isUndefined].
    step (key_of_ok E (VStr k) k h' eq_refl).
    exact (get_prop_own_data call h' l k val true e c Hown).
  - unfold Keymap.access. step (Hkey h). cbn [isUndefined].
    step (key_of_ok E (VStr k) k h eq_refl). reflexivity.
Qed.

Lemma access_round_trip_witness :
  Keymap.access demo (invoke demo 0) (VNum 0) VUndef VUndef configured
  = Ok (VStr "parent", configured)
  /\ Keymap.access demo (invoke demo 0) (VNum 0) (VRef 22) (VStr "eh") configured
     = Ok (VStr "eh",
           mark 22 "parent" (PData (VStr "eh") true true true) configured)
  /\ Keymap.access demo (invoke demo 0) (VNum 0) (VRef 22) VUndef
       (mark 22 "parent" (PData (VStr "eh") true true true) configured)
     = Ok (VStr "eh",
           mark 22 "parent" (PData (VStr "eh") true true true) configured)
  /\ Keymap.access demo (invoke demo 0) (VNum 0) (VRef 22) VUndef configured
     = JS.get_prop (invoke demo 0) (VRef 22) "parent" configured
  /\ Keymap.keys !! Z.to_nat Keymap.KEY_UNDEFINED = Some "null".
Proof.
  apply (access_round_trip demo (invoke demo 0) 0 "parent" 22 (VStr "eh")
           (PData (VStr "eh") true true true) configured).
  - reflexivity.
  - eexists. split; [vm_compute; reflexivity|]. right.
    do 3 eexists. split; vm_compute; reflexivity.
  - reflexivity.
Defined.

(** ** from *)

Lemma find_prop_put_map (s : loc) (es : list (value * value)) (h : heap)
  (k : string) :
  forall d l, JS.find_prop d (put_map s es h) l k = JS.find_prop d h l k.
Proof.
  induction d as [|d IH]; intros l; simpl; rewrite put_map_lookup;
    destruct (h !! l) as [o|]; try reflexivity;
    destruct (Nat.eqb l s); try reflexivity;
    destruct o as [pr ex ps kd]; simpl;
    destruct (alookup k ps); try reflexivity;
    destruct pr; try reflexivity; apply IH.
Qed.

Lemma own_keys_literal (o : obj) (fs : fields) :
  o_props o = literal_props fs -> JS.own_keys o = map fst fs.
Proof.
  unfold JS.own_keys. intros ->. induction fs as [|[k v] fs IH]; simpl;
    [reflexivity | now rewrite IH].
Qed.

Lemma alookup_literal (fs : fields) (k : string) :
  alookup k (literal_props fs)
  = option_map (fun v => PData v true true true) (alookup k fs).
Proof.
  induction fs as [|[k' v'] fs IH]; simpl; [reflexivity|].
  now destruct (String.eqb k k').
Qed.

Lemma stored_lookup (fs : fields) :
  forall (es : list (value * value)) (key : value),
    JS.is_array key = false ->
    List.NoDup (map fst fs) ->
    mlookup key (stored fs es)
    = match key with
      | VStr k => match alookup k fs with
                  | Some v => Some v
                  | None => mlookup key es
                  end
      | _ => mlookup key es
      end.
Proof.
  induction fs as [|[k v] fs IH]; intros es key Harr Hnd.
  - now destruct key.
  - inversion Hnd as [|? ? Hnotin Hnd']; subst.
    cbn [stored fold_left fst snd]. fold (stored fs (mset (VStr k) v es)).
    rewrite (IH _ key Harr Hnd').
    destruct key as [| | | | |k0| |]; try (apply mlookup_mset_ne; discriminate).
    cbn [alookup]. destruct (String.eqb k0 k) eqn:Hk.
    + apply String.eqb_eq in Hk. subst k0.
      destruct (alookup k fs) as [v'|] eqn:Hl.
      * exfalso. apply Hnotin. apply in_map_iff. exists (k, v').
        split; [reflexivity | now apply alookup_In].
      * now apply mlookup_mset_eq.
    + destruct (alookup k0 fs); [reflexivity|].
      apply mlookup_mset_ne. intros [= ->]. now rewrite String.eqb_refl in Hk.
Qed.

Lemma from_loop (call : caller) (a s ol : loc) (es0 : list (value * value))
  (h : heap) :
  store_at h a s -> map_at h s es0 ->
  forall (rest : fields) (es : list (value * value)),
    (forall k v, In (k, v) rest ->
       JS.own_prop h ol k = Some (PData v true true true)) ->
    (forall k, In k (map fst rest) ->
       JS.find_prop (length h) h a k = None) ->
    for_each
      (fun key =>
         val <- JS.get_prop call (VRef ol) key ;;
         c1 <- JS.get_prop call (VRef a) key ;;
         chain <- (if JS.truthy c1
                   then c2 <- JS.get_prop call (VRef a) key ;;
                        h <- get_heap ;;
                        ret (JS.instance_of h c2 Chainable_prototype)
                   else ret false) ;;
         if (chain : bool)
         then recv <- JS.get_prop call (VRef a) key ;;
              JS.call_method call recv "merge" [val] ;;
              ret tt
         else c3 <- JS.get_prop call (VRef a) key ;;
              h <- get_heap ;;
              if JS.is_callable h c3
              then JS.call_method call (VRef a) key [val] ;; ret tt
              else ChainedMap.set call (VRef a) (VStr key) val ;; ret tt)
      (map fst rest) (put_map s es h)
    = Ok (tt, put_map s (stored rest es) h).
Proof.
  intros Hst Hmap. induction rest as [|[k v] rest IH]; intros es Hobj Hfree.
  - reflexivity.
  - cbn [map for_each fst].
    set (hc := put_map s es h).
    assert (Hval : JS.get_prop call (VRef ol) k hc = Ok (v, hc)).
    { apply (get_prop_own_data call hc ol k v true true true).
      unfold hc. rewrite put_map_own_prop. apply Hobj. now left. }
    assert (Hnone : JS.get_prop call (VRef a) k hc = Ok (VUndef, hc)).
    { unfold JS.get_prop, bind, get_heap, hc.
      rewrite put_map_length, find_prop_put_map.
      rewrite (Hfree k (or_introl eq_refl)). reflexivity. }
    assert (Hset : ChainedMap.set call (VRef a) (VStr k) v hc
                   = Ok (VRef a, put_map s (mset (VStr k) v es) h)).
    { unfold hc. rewrite (ChainedMap_set_ok call a s (VStr k) v es).
      - now rewrite put_map_put_map.
      - now apply put_map_store_at.
      - eapply put_map_map_at. exact Hmap.
      - reflexivity. }
    assert (Hbody :
      (val <- JS.get_prop call (VRef ol) k ;;
       c1 <- JS.get_prop call (VRef a) k ;;
       chain <- (if JS.truthy c1
                 then c2 <- JS.get_prop call (VRef a) k ;;
                      h <- get_heap ;;
                      ret (JS.instance_of h c2 Chainable_prototype)
                 else ret false) ;;
       if (chain : bool)
       then recv <- JS.get_prop call (VRef a) k ;;
            JS.call_method call recv "merge" [val] ;;
            ret tt
       else c3 <- JS.get_prop call (VRef a) k ;;
            h <- get_heap ;;
            if JS.is_callable h c3
            then JS.call_method call (VRef a) k [val] ;; ret tt
            else ChainedMap.set call (VRef a) (VStr k) val ;; ret tt) hc
      = Ok (tt, put_map s (mset (VStr k) v es) h)).
    { step Hval. step Hnone. cbn [JS.truthy].
      unfold bind at 1. unfold ret at 1. cbv beta iota.
      step Hnone. unfold bind at 1, get_heap at 1.
      cbn [JS.is_callable JS.closure_of].
      step Hset. reflexivity. }
    step Hbody.
    apply IH.
    + intros k' v' Hin. apply Hobj. now right.
    + intros k' Hin. apply Hfree. now right.
Qed.

(** X14.  [from(obj)] for an object literal none of whose keys is a
    member of the chain, own or inherited: every field of the object is
    stored under its key, as [set(key, val)] would; the other entries of
    the store, and every other object, are as before; the result is the
    chain. *)
Theorem from_stores_plain_keys (call : caller) (a s ol : loc) (oo : obj)
  (fs : fields) (es : list (value * value)) (h : heap) :
  store_at h a s -> map_at h s es ->
  h !! ol = Some oo -> o_props oo = literal_props fs ->
  List.NoDup (map fst fs) ->
  (forall k, In k (map fst fs) -> JS.find_prop (length h) h a k = None) ->
  exists h' es',
    ChainedMap.from call (VRef a) (VRef ol) h = Ok (VRef a, h')
    /\ map_at h' s es'
    /\ (forall key, JS.is_array key = false ->
          mlookup key es'
          = match key with
            | VStr k => match alookup k fs with
                        | Some v => Some v
                        | None => mlookup key es
                        end
            | _ => mlookup key es
            end)
    /\ (forall k v, In (k, v) fs ->
          ChainedMap.get call (VRef a) (VStr k) h' = Ok (v, h'))
    /\ (forall l, l <> s -> h' !! l = h !! l).
Proof.
  intros Hst Hmap Hol Hprops Hnd Hfree.
  exists (put_map s (stored fs es) h), (stored fs es).
  assert (Hmap' : map_at (put_map s (stored fs es) h) s (stored fs es))
    by (eapply put_map_map_at; exact Hmap).
  split; [|split; [exact Hmap'|split; [|split]]].
  - unfold ChainedMap.from.
    assert (Hkeys : ObjectKeys (VRef ol) h = Ok (map fst fs, h)).
    { unfold ObjectKeys, bind, get_heap. rewrite Hol.
      now rewrite (own_keys_literal oo fs Hprops). }
    step Hkeys.
    assert (Hobj : forall k v, In (k, v) fs ->
              JS.own_prop h ol k = Some (PData v true true true)).
    { intros k v Hin. unfold JS.own_prop.
      rewrite Hol, Hprops, alookup_literal.
      now rewrite (alookup_unique k v fs Hnd Hin). }
    assert (Hloop := from_loop call a s ol es h Hst Hmap fs es Hobj Hfree).
    rewrite (put_map_same s es h Hmap) in Hloop.
    step Hloop. reflexivity.
  - intros key Harr. now apply stored_lookup.
  - intros k v Hin.
    rewrite (ChainedMap_get_ok call a s (VStr k) (stored fs es)).
    + rewrite (stored_lookup fs es (VStr k) eq_refl Hnd).
      now rewrite (alookup_unique k v fs Hnd Hin).
    + now apply put_map_store_at.
    + exact Hmap'.
    + reflexivity.
  - intros l Hne. rewrite put_map_lookup. destruct (h !! l); [|reflexivity].
    apply Nat.eqb_neq in Hne. now rewrite Hne.
Qed.

Lemma from_stores_plain_keys_witness :
  exists h' es',
    ChainedMap.from (invoke demo 0) (VRef 22) (VRef 49) with_literal
    = Ok (VRef 22, h')
    /\ map_at h' 23 es'
    /\ (forall key, JS.is_array key = false ->
          mlookup key es'
          = match key with
            | VStr k =>
                match alookup k [("eh", VBool true); ("x", VNum 1)] with
                | Some v => Some v
                | None => mlookup key []
                end
            | _ => mlookup key []
            end)
    /\ (forall k v, In (k, v) [("eh", VBool true); ("x", VNum 1)] ->
          ChainedMap.get (invoke demo 0) (VRef 22) (VStr k) h' = Ok (v, h'))
    /\ (forall l, l <> 23 -> h' !! l = with_literal !! l).
Proof.
  eapply (from_stores_plain_keys (invoke demo 0) 22 23 49).
  - do 3 eexists. vm_compute. reflexivity.
  - eexists. split; vm_compute; reflexivity.
  - vm_compute. reflexivity.
  - reflexivity.
  - repeat constructor; simpl; intuition discriminate.
  - intros k [<-|[<-|[]]]; vm_compute; reflexivity.
Defined.

(** ** extend *)

Lemma lacks_find (k : string) (h : heap) :
  forall f l, lacks f h l k = true -> forall d, JS.find_prop d h l k = None.
Proof.
  induction f as [|f IH]; intros l Hl d; simpl in Hl;
    destruct (h !! l) as [o|] eqn:Ho; try discriminate;
    destruct (alookup k (o_props o)) eqn:Hk; try discriminate;
    destruct (o_proto o) as [l'|] eqn:Hp; try discriminate;
    destruct d; simpl; rewrite Ho, Hk; try reflexivity; rewrite Hp;
    try reflexivity.
  now apply IH.
Qed.

Lemma lacks_agree_on (k : string) (h h' : heap) :
  agree_on k h h' ->
  forall f l, lacks f h l k = true -> lacks f h' l k = true.
Proof.
  intros Hag. induction f as [|f IH]; intros l Hl; simpl in *;
    destruct (h !! l) as [o|] eqn:Ho; try discriminate;
    destruct (Hag l o Ho) as (o' & -> & -> & -> & _);
    destruct (alookup k (o_props o)); try discriminate;
    destruct (o_proto o); try discriminate; try reflexivity.
  now apply IH.
Qed.

Lemma agree_on_refl (k : string) (h : heap) : agree_on k h h.
Proof. intros l o Hl. now exists o. Qed.

Lemma agree_on_trans (k : string) (h1 h2 h3 : heap) :
  agree_on k h1 h2 -> agree_on k h2 h3 -> agree_on k h1 h3.
Proof.
  intros H12 H23 l o Hl.
  destruct (H12 l o Hl) as (o2 & Hl2 & Hp2 & Hq2 & Hk2).
  destruct (H23 l o2 Hl2) as (o3 & Hl3 & Hp3 & Hq3 & Hk3).
  exists o3. repeat split; congruence.
Qed.

Lemma agree_on_mark (k k0 : string) (m : loc) (p : prop) (h : heap) :
  k <> k0 -> agree_on k h (mark m k0 p h).
Proof.
  intros Hne l o Hl. rewrite mark_lookup, Hl. eexists. split; [reflexivity|].
  destruct (Nat.eqb l m); [|now repeat split].
  simpl. now rewrite alookup_aset_ne.
Qed.

Lemma agree_on_app (k : string) (h x : heap) : agree_on k h (h ++ x).
Proof.
  intros l o Hl. exists o. split; [now apply lookup_app_l_Some | now repeat split].
Qed.

Lemma agree_on_pushed (k : string) (a : loc) (x : value) (h : heap) :
  k <> "shorthands" -> agree_on k h (pushed a x h).
Proof.
  intros Hne. unfold pushed.
  destruct (JS.own_prop h a "shorthands") as [[[| | | | | |l|] w e c|]|];
    try apply agree_on_refl.
  now apply agree_on_mark.
Qed.

Lemma agree_on_extend_step (k : string) (a : loc) (m : string) (h : heap) :
  k <> "shorthands" -> k <> m -> agree_on k h (extend_step a h m).
Proof.
  intros Hs Hm. unfold extend_step.
  eapply agree_on_trans; [apply agree_on_pushed; exact Hs|].
  eapply agree_on_trans; [apply agree_on_app|].
  now apply agree_on_mark.
Qed.

Lemma agree_on_fold (k : string) (a : loc) :
  forall (ms : list string) (h : heap),
    k <> "shorthands" -> ~ In k ms ->
    agree_on k h (fold_left (extend_step a) ms h).
Proof.
  induction ms as [|m ms IH]; intros h Hs Hnin; [apply agree_on_refl|].
  cbn [fold_left]. apply (agree_on_trans k h (extend_step a h m)).
  - apply agree_on_extend_step; [exact Hs|].
    intros Heq. apply Hnin. left. now symmetry.
  - apply IH; [exact Hs|]. intros Hin. apply Hnin. now right.
Qed.

Lemma agree_on_own_method (k : string) (h h' : heap) (a : loc) (c : closure) :
  agree_on k h h' ->
  (forall f cf, JS.closure_of h (VRef f) = Some cf ->
                JS.closure_of h' (VRef f) = Some cf) ->
  own_method h a k c -> own_method h' a k c.
Proof.
  intros Hag Hcl (f & w & e & cf & Hp & Hc). exists f, w, e, cf. split.
  - unfold JS.own_prop in *. destruct (h !! a) as [o|] eqn:Ho; [|discriminate].
    destruct (Hag a o Ho) as (o' & -> & -> & _). exact Hp.
  - now apply Hcl.
Qed.

Lemma agree_on_closure_of (k : string) (h h' : heap) (f : loc) (c : closure) :
  agree_on k h h' ->
  JS.closure_of h (VRef f) = Some c -> JS.closure_of h' (VRef f) = Some c.
Proof.
  intros Hag. simpl. destruct (h !! f) as [o|] eqn:Ho; [|discriminate].
  destruct (Hag f o Ho) as (o' & -> & _ & _ & Hk).
  destruct o as [pr ex ps kd], o' as [pr' ex' ps' kd']. simpl in Hk.
  now subst kd'.
Qed.

Lemma pushed_length (a : loc) (x : value) (h : heap) :
  length (pushed a x h) = length h.
Proof.
  unfold pushed.
  destruct (JS.own_prop h a "shorthands") as [[[| | | | | |l|] w e c|]|];
    try reflexivity.
  apply mark_length.
Qed.

Lemma push_shorthand_ok (call : caller) (a : loc) (x : value)
  (l : list value) (w e c : bool) (h : heap) :
  JS.own_prop h a "shorthands" = Some (PData (VArr l) w e c) ->
  ChainedMap.push_shorthand call (VRef a) x h = Ok (tt, pushed a x h).
Proof.
  intros Hsh. unfold ChainedMap.push_shorthand.
  step (get_prop_own_data call h a "shorthands" (VArr l) w e c Hsh).
  unfold bind, get_heap. rewrite Hsh. unfold pushed. rewrite Hsh.
  unfold JS.update, mark. unfold JS.own_prop in Hsh.
  destruct (h !! a) as [o|]; [reflexivity | discriminate].
Qed.

Section ExtendLoop.
Variable E : env.
Variable call : caller.
Variable a : loc.
Variable fuel : nat.

Lemma extensible_chain_names (h : heap) (l : list value) (w e c : bool)
  (ms : list string) (m : string) :
  extensible_chain a fuel h l w e c ms -> In m ms -> m <> "shorthands".
Proof.
  intros (_ & Hsh & Hlacks) Hin ->. specialize (Hlacks _ Hin).
  unfold JS.own_prop in Hsh.
  destruct fuel; simpl in Hlacks;
    destruct (h !! a) as [o|]; try discriminate; now rewrite Hsh in Hlacks.
Qed.

Lemma extend_step_own (h : heap) (m : string) (o : obj) :
  h !! a = Some o ->
  exists o', extend_step a h m !! a = Some o' /\ o_ext o' = o_ext o
    /\ alookup m (o_props o') = Some (PData (VRef (length h)) true true true)
    /\ JS.closure_of (extend_step a h m) (VRef (length h))
       = Some (CShorthand (VRef a) (VStr m)).
Proof.
  intros Ha. unfold extend_step.
  assert (Hp : exists o1, pushed a (VStr m) h !! a = Some o1
                          /\ o_ext o1 = o_ext o).
  { unfold pushed.
    destruct (JS.own_prop h a "shorthands") as [[[| | | | | |l|] w e c|]|];
      try (now exists o).
    destruct (mark_ext a a "shorthands" (PData (VArr (l ++ [VStr m])) w e c)
                h o Ha) as (o1 & H1 & H2 & _).
    now exists o1. }
  destruct Hp as (o1 & Ho1 & Hext1).
  set (h1 := pushed a (VStr m) h ++ [JS.new_fun (CShorthand (VRef a) (VStr m))]).
  assert (Ha1 : h1 !! a = Some o1) by (now apply lookup_app_l_Some).
  destruct (mark_ext a a m (PData (VRef (length h)) true true true) h1 o1 Ha1)
    as (o2 & Ho2 & Hext2 & _).
  exists o2. split; [exact Ho2|]. split; [congruence|]. split.
  - pose proof (mark_own_prop_eq a m (PData (VRef (length h)) true true true)
                  h1 o1 Ha1) as Hown.
    unfold JS.own_prop in Hown. now rewrite Ho2 in Hown.
  - rewrite mark_closure_of. unfold h1.
    rewrite <- (pushed_length a (VStr m) h). apply closure_of_alloc.
Qed.

Lemma extend_step_chain (h : heap) (l : list value) (w e c : bool)
  (m : string) (ms : list string) :
  extensible_chain a fuel h l w e c (m :: ms) -> ~ In m ms ->
  extensible_chain a fuel (extend_step a h m) (l ++ [VStr m]) w e c ms.
Proof.
  intros Hinv Hnin.
  assert (Hm : m <> "shorthands")
    by (apply (extensible_chain_names h l w e c (m :: ms)); [exact Hinv | now left]).
  destruct Hinv as ((o & Ha & Hext) & Hsh & Hlacks).
  split; [|split].
  - destruct (extend_step_own h m o Ha) as (o' & Ho' & Hext' & _).
    exists o'. split; [exact Ho' | congruence].
  - unfold extend_step. rewrite mark_own_prop_ne by congruence.
    apply own_prop_app. unfold pushed. rewrite Hsh.
    now apply (mark_own_prop_eq a "shorthands" _ h o).
  - intros m' Hin.
    apply (lacks_agree_on m' h).
    + apply agree_on_extend_step.
      * apply (extensible_chain_names h l w e c (m :: ms));
          [now repeat split; eauto | now right].
      * intros ->. contradiction.
    + apply Hlacks. now right.
Qed.

Lemma extend_round (h : heap) (l : list value) (w e c : bool)
  (m : string) (ms : list string) :
  extensible_chain a fuel h l w e c (m :: ms) ->
  (ChainedMap.push_shorthand call (VRef a) (VStr m) ;;
   k <- JS.key_of E (VStr m) ;;
   f <- JS.alloc_fun (CShorthand (VRef a) (VStr m)) ;;
   JS.set_prop call true (VRef a) k f) h
  = Ok (tt, extend_step a h m).
Proof.
  intros Hinv.
  assert (Hm : m <> "shorthands")
    by (apply (extensible_chain_names h l w e c (m :: ms)); [exact Hinv | now left]).
  destruct Hinv as ((o & Ha & Hext) & Hsh & Hlacks).
  step (push_shorthand_ok call a (VStr m) l w e c h Hsh).
  step (key_of_ok E (VStr m) m (pushed a (VStr m) h) eq_refl).
  step (alloc_fun_ok (CShorthand (VRef a) (VStr m)) (pushed a (VStr m) h)).
  rewrite pushed_length.
  set (h1 := pushed a (VStr m) h ++ [JS.new_fun (CShorthand (VRef a) (VStr m))]).
  assert (Hag : agree_on m h h1).
  { eapply agree_on_trans; [apply agree_on_pushed; exact Hm | apply agree_on_app]. }
  destruct (Hag a o Ha) as (o1 & Ha1 & _ & _ & _).
  assert (Hext1 : o_ext o1 = true).
  { unfold h1 in Ha1. unfold pushed in Ha1. rewrite Hsh in Ha1.
    destruct (mark_ext a a "shorthands" (PData (VArr (l ++ [VStr m])) w e c)
                h o Ha) as (o2 & Ho2 & Hext2 & _).
    rewrite (lookup_app_l_Some _ _ _ _ Ho2) in Ha1. congruence. }
  apply set_prop_accepts. exists o1. split; [exact Ha1|]. left.
  split; [|split; [exact Hext1 | reflexivity]].
  apply (lacks_find m h1 fuel).
  apply (lacks_agree_on m h h1 Hag). apply Hlacks. now left.
Qed.

Lemma extend_loop :
  forall (ms : list string) (h : heap) (l : list value) (w e c : bool),
    extensible_chain a fuel h l w e c ms -> List.NoDup ms ->
    for_each
      (fun method =>
         ChainedMap.push_shorthand call (VRef a) method ;;
         k <- JS.key_of E method ;;
         f <- JS.alloc_fun (CShorthand (VRef a) method) ;;
         JS.set_prop call true (VRef a) k f)
      (map VStr ms) h
    = Ok (tt, fold_left (extend_step a) ms h).
Proof.
  induction ms as [|m ms IH]; intros h l w e c Hinv Hnd; [reflexivity|].
  inversion Hnd as [|? ? Hnin Hnd']; subst.
  cbn [map for_each fold_left].
  step (extend_round h l w e c m ms Hinv).
  apply (IH _ (l ++ [VStr m]) w e c); [|exact Hnd'].
  now apply extend_step_chain.
Qed.

Lemma extend_fold :
  forall (ms : list string) (h : heap) (l : list value) (w e c : bool),
    extensible_chain a fuel h l w e c ms -> List.NoDup ms ->
    let h' := fold_left (extend_step a) ms h in
    JS.own_prop h' a "shorthands"
    = Some (PData (VArr (l ++ map VStr ms)) w e c)
    /\ (forall m, In m ms ->
          own_method h' a m (CShorthand (VRef a) (VStr m)))
    /\ (forall lo o, h !! lo = Some o -> lo <> a -> h' !! lo = Some o).
Proof.
  induction ms as [|m ms IH]; intros h l w e c Hinv Hnd.
  - cbn [fold_left map]. rewrite app_nil_r.
    split; [apply Hinv|]. split; [contradiction | auto].
  - inversion Hnd as [|? ? Hnin Hnd']; subst.
    assert (Hm : m <> "shorthands")
      by (apply (extensible_chain_names h l w e c (m :: ms));
          [exact Hinv | now left]).
    assert (Hinv1 := extend_step_chain h l w e c m ms Hinv Hnin).
    destruct (IH _ _ w e c Hinv1 Hnd') as (Hsh' & Hmeth' & Hrest').
    cbn [fold_left map]. split; [|split].
    + rewrite Hsh'. now rewrite <- app_assoc.
    + intros m' [<-|Hin]; [|now apply Hmeth'].
      destruct Hinv as ((o & Ha & Hext) & _).
      destruct (extend_step_own h m o Ha) as (o' & Ho' & _ & Hown & Hcl).
      assert (Hag := agree_on_fold m a ms (extend_step a h m) Hm Hnin).
      apply (agree_on_own_method m (extend_step a h m)); [exact Hag| |].
      * intros f cf. now apply agree_on_closure_of with (k := m).
      * exists (length h), true, true, true. split; [|exact Hcl].
        unfold JS.own_prop. now rewrite Ho'.
    + intros lo o Hlo Hne. apply Hrest'; [|exact Hne].
      unfold extend_step. rewrite mark_other by exact Hne.
      apply lookup_app_l_Some. unfold pushed.
      destruct (JS.own_prop h a "shorthands") as [[[| | | | | |l0|] w0 e0 c0|]|];
        try exact Hlo.
      now rewrite mark_other.
Qed.

End ExtendLoop.

(** X15.  [extend(methods)] with new names, on an extensible chain that
    keeps its [shorthands] array: the names are appended to
    [shorthands] in order; every name becomes a member of the chain, a
    function, and calling it with a value is [set(name, value)]; no
    other object changes; the result is the chain. *)
Theorem extend_installs_setters (E : env) (n : nat) (a : loc) (o : obj)
  (l : list value) (w e c : bool) (ms : list string) (h : heap) :
  h !! a = Some o -> o_ext o = true ->
  JS.own_prop h a "shorthands" = Some (PData (VArr l) w e c) ->
  (forall m, In m ms -> lacks (length h) h a m = true) ->
  List.NoDup ms ->
  exists h',
    ChainedMap.extend E (invoke E (S n)) (VRef a) (VArr (map VStr ms)) h
    = Ok (VRef a, h')
    /\ JS.own_prop h' a "shorthands"
       = Some (PData (VArr (l ++ map VStr ms)) w e c)
    /\ (forall m v, In m ms ->
          JS.call_method (invoke E (S n)) (VRef a) m [v] h'
          = ChainedMap.set (invoke E n) (VRef a) (VStr m) v h')
    /\ (forall lo o', h !! lo = Some o' -> lo <> a -> h' !! lo = Some o').
Proof.
  intros Ha Hext Hsh Hlacks Hnd.
  assert (Hinv : extensible_chain a (length h) h l w e c ms).
  { split; [now exists o | split; assumption]. }
  destruct (extend_fold a (length h) ms h l w e c Hinv Hnd)
    as (Hsh' & Hmeth & Hrest).
  exists (fold_left (extend_step a) ms h).
  split; [|split; [exact Hsh'|split; [|exact Hrest]]].
  - unfold ChainedMap.extend.
    step (extend_loop E (invoke E (S n)) a (length h) ms h l w e c Hinv Hnd).
    reflexivity.
  - intros m v Hin.
    now rewrite (call_method_own E n a m _ [v] _ (Hmeth m Hin)).
Qed.

Lemma extend_installs_setters_witness :
  exists h',
    ChainedMap.extend demo (invoke demo 1) (VRef 22)
      (VArr (map VStr ["canada"; "igloo"])) configured
    = Ok (VRef 22, h')
    /\ JS.own_prop h' 22 "shorthands"
       = Some (PData (VArr ([] ++ map VStr ["canada"; "igloo"])) true true true)
    /\ (forall m v, In m ["canada"; "igloo"] ->
          JS.call_method (invoke demo 1) (VRef 22) m [v] h'
          = ChainedMap.set (invoke demo 0) (VRef 22) (VStr m) v h')
    /\ (forall lo o', configured !! lo = Some o' -> lo <> 22 ->
          h' !! lo = Some o').
Proof.
  eapply (extend_installs_setters demo 0 22).
  - vm_compute. reflexivity.
  - reflexivity.
  - vm_compute. reflexivity.
  - intros m [<-|[<-|[]]]; vm_compute; reflexivity.
  - repeat constructor; simpl; intuition discriminate.
Defined.

(** ** autoIncrement *)









(** ** The default handlers, run *)

Lemma put_map_method_at (s p : loc) (k : string) (c : closure)
  (es es' : list (value * value)) (h : heap) :
  map_at h s es -> method_at h p k c -> method_at (put_map s es' h) p k c.
Proof.
  intros Hmap (t & w & e & cf & Hfind & Hc). exists t, w, e, cf. split.
  - now rewrite put_map_length, find_prop_put_map.
  - now rewrite (put_map_closure_of _ _ _ _ _ Hmap).
Qed.

Lemma call_method_at (E : env) (n : nat) (p : loc) (k : string)
  (c : closure) (args : list value) (h : heap) :
  method_at h p k c ->
  JS.call_method (invoke E (S n)) (VRef p) k args h
  = run E (invoke E n) c (VRef p) args h.
Proof.
  intros (t & w & e & cf & Hfind & Hc). unfold JS.call_method.
  step (get_prop_found_data (invoke E (S n)) h p k (VRef t) w e cf Hfind).
  unfold bind, get_heap, JS.is_callable. rewrite Hc.
  cbn [invoke]. now rewrite Hc.
Qed.

(** X17.  The two default handlers of [_defaults], for a parent that is
    a chain with [set] and [get] of [ChainedMap] within reach: the
    default setter, called with a value on any receiver, stores the
    value under the name in the store of the parent and returns the
    parent; the default getter, called afterwards with any receiver and
    any arguments, returns that value and changes nothing. *)
Theorem default_handlers_round_trip (E : env) (fuel : nat) (p sp : loc)
  (name_ fs fg v recv recv' : value) (rest args : list value)
  (es : list (value * value)) (h : heap) :
  store_at h p sp -> map_at h sp es -> JS.is_array name_ = false ->
  method_at h p "set" (CChainedMap CM_set) ->
  method_at h p "get" (CChainedMap CM_get) ->
  JS.closure_of h fs = Some (CDefaultOnSet (VRef p) name_) ->
  JS.closure_of h fg = Some (CDefaultOnGet (VRef p) name_) ->
  let h' := put_map sp (mset name_ v es) h in
  invoke E (S (S fuel)) fs recv (v :: rest) h = Ok (VRef p, h')
  /\ invoke E (S (S fuel)) fg recv' args h' = Ok (v, h').
Proof.
  intros Hst Hmap Hname Hset Hget Hfs Hfg h'.
  assert (Hst' : store_at h' p sp) by now apply put_map_store_at.
  assert (Hmap' : map_at h' sp (mset name_ v es))
    by (eapply put_map_map_at; exact Hmap).
  split.
  - cbn [invoke]. rewrite Hfs. cbn [run].
    rewrite (call_method_at E fuel p "set" _ _ h Hset). cbn [run].
    unfold arg. cbn [nth]. now apply ChainedMap_set_ok.
  - assert (Hfg' : JS.closure_of h' fg = Some (CDefaultOnGet (VRef p) name_))
      by (unfold h'; now rewrite (put_map_closure_of _ _ _ _ _ Hmap)).
    cbn [invoke]. rewrite Hfg'. cbn [run].
    rewrite (call_method_at E fuel p "get" (CChainedMap CM_get) _ h').
    + cbn [run]. unfold arg. cbn [nth].
      rewrite (ChainedMap_get_ok _ p sp name_ (mset name_ v es) h'
                 Hst' Hmap' Hname).
      now rewrite mlookup_mset_eq.
    + now apply (put_map_method_at sp p "get" _ es).
Qed.

Lemma default_handlers_round_trip_witness :
  invoke demo 2 (VRef 49) VUndef [VNum 5] with_handlers
  = Ok (VRef 22, put_map 23 (mset (VStr "eh") (VNum 5) []) with_handlers)
  /\ invoke demo 2 (VRef 50) (VRef 24) [VNum 1]
       (put_map 23 (mset (VStr "eh") (VNum 5) []) with_handlers)
     = Ok (VNum 5, put_map 23 (mset (VStr "eh") (VNum 5) []) with_handlers).
Proof.
  apply (default_handlers_round_trip demo 0 22 23 (VStr "eh") (VRef 49)
           (VRef 50) (VNum 5) VUndef (VRef 24) [] [VNum 1] [] with_handlers).
  - do 3 eexists. vm_compute. reflexivity.
  - eexists. split; vm_compute; reflexivity.
  - reflexivity.
  - do 4 eexists. split; vm_compute; reflexivity.
  - do 4 eexists. split; vm_compute; reflexivity.
  - vm_compute. reflexivity.
  - vm_compute. reflexivity.
Defined.

(** X18.  The [initial] value of lines 382-384: whatever is not
    [undefined], falsy values such as 0, [false], the empty string and
    [null] included, is written to the store of the parent under the
    name by [parent.set]; [undefined] writes nothing. *)
Theorem initial_value_is_stored (E : env) (fuel : nat) (p sp : loc)
  (name_ : value) (built : fields) (es : list (value * value)) (h : heap) :
  store_at h p sp -> map_at h sp es -> JS.is_array name_ = false ->
  method_at h p "set" (CChainedMap CM_set) ->
  MethodChain._build_initial (invoke E (S fuel)) name_ (VRef p) built h
  = Ok (tt, if isUndefined (field "initial" built) then h
            else put_map sp (mset name_ (field "initial" built) es) h).
Proof.
  intros Hst Hmap Hname Hset. unfold MethodChain._build_initial.
  destruct (isUndefined (field "initial" built)); [reflexivity|].
  assert (Hcall : JS.call_method (invoke E (S fuel)) (VRef p) "set"
                    [name_; field "initial" built] h
                  = Ok (VRef p,
                        put_map sp (mset name_ (field "initial" built) es) h)).
  { rewrite (call_method_at E fuel p "set" _ _ h Hset). cbn [run].
    unfold arg. cbn [nth]. now apply ChainedMap_set_ok. }
  step Hcall. reflexivity.
Qed.

Lemma initial_value_is_stored_witness :
  MethodChain._build_initial (invoke demo 1) (VStr "count") (VRef 22)
    [("initial", VNum 0)] configured
  = Ok (tt, put_map 23 (mset (VStr "count") (VNum 0) []) configured).
Proof.
  apply (initial_value_is_stored demo 0 22 23 (VStr "count")
           [("initial", VNum 0)] [] configured).
  - do 3 eexists. vm_compute. reflexivity.
  - eexists. split; vm_compute; reflexivity.
  - reflexivity.
  - do 4 eexists. split; vm_compute; reflexivity.
Defined.
